(** * js-utils: numeric, randomness and coordinate helpers

    A shallow embedding of the helper functions of [src/utils.js] and of
    the later revisions of the same file kept in [src/unnamed/part_000],
    together with the properties stated about them.

    Conventions of the embedding.

    - A JavaScript Number is a double.  Its finite values are rationals
      and are written in [Q]; results are compared with [==] ([Qeq]).
      An operation of double arithmetic gives the exact result rounded to
      the nearest double, ties to even: [fl].  The functions of module
      [Binary64] are written with these operations, and their arguments
      are assumed to be doubles ([double]) where that matters.  Overflow
      to an infinity is not part of [fl]: the properties are stated where
      every result stays within the range of the doubles.
    - The other functions are written with the exact operations: their
      properties are those of the formulas over the rationals, which the
      doubles follow where no operation rounds, as on integers below
      2^53.
    - [Math.random()] reads a source of draws: the [n]-th call returns
      [g n].  Code that draws is written in a state monad over the number
      of calls made so far.  ECMAScript promises [0 <= g n < 1]; theorems
      that need it assume [unit_draws g].
    - [while] loops and the rejection recursion of [random_normal] take a
      fuel argument and answer [None] when it runs out.
    - An absent argument and [undefined] are [None]; so is [null] for
      the functions of part_000 whose parameters default to [null].
    - A character is a code unit below 256.
    - [NaN] and the infinities are no rationals: a division is modelled
      for a divisor other than zero, and the [NaN] of [parseInt] is
      [None]. *)

From Stdlib Require Import ZArith QArith Qround Qabs Qpower Qminmax Lqa Lia.
From Stdlib Require Import Ascii String.
From stdpp Require Import base list.

Local Open Scope Q_scope.

(** ** Numbers *)

Definition Qltb (x y : Q) : bool := negb (Qle_bool y x).

Definition Qeqb (x y : Q) : bool := Qeq_bool x y.

(** [Math.floor], as a Number. *)
Definition Math_floor (x : Q) : Q := inject_Z (Qfloor x).

(** ** Double arithmetic *)

(** The exponent of a number other than zero: the [e] with
    [2 ^ e <= |q| < 2 ^ (e + 1)]. *)
Definition ilog2 (q : Q) : Z :=
  let e := (Z.log2 (Z.abs (Qnum q)) - Z.log2 (Zpos (Qden q)))%Z in
  if Qle_bool (2 ^ e) (Qabs q) then e else (e - 1)%Z.

(** The integer nearest to [x], the even one of two equally near. *)
Definition rne (x : Q) : Z :=
  let f := Qfloor x in
  match Qcompare (x - inject_Z f) (1 # 2) with
  | Lt => f
  | Gt => (f + 1)%Z
  | Eq => if Z.even f then f else (f + 1)%Z
  end.

(** The spacing of the doubles around [q]: 53 significant bits, and
    below [2 ^ -1022] the fixed spacing [2 ^ -1074] of the subnormal
    numbers. *)
Definition ulp (q : Q) : Q := 2 ^ (Z.max (ilog2 q) (-1022) - 52).

(** Rounding to binary64: to the nearest multiple of the spacing. *)
Definition fl_canonical (q : Q) : Q :=
  if Qeq_bool q 0 then 0 else inject_Z (rne (q / ulp q)) * ulp q.

(** The double nearest to [q], ties to even, for [q] within the range of
    the doubles. *)
Definition fl (q : Q) : Q := fl_canonical (Qred q).

(** The rationals that are doubles: rounding leaves them as they are,
    and they lie below [2 ^ 1024]. *)
Definition double (q : Q) : Prop := fl q == q /\ Qabs q < 2 ^ 1024.

#[export] Instance double_dec (q : Q) : Decision (double q).
Proof.
  unfold double. destruct (Qeq_dec (fl q) q) as [E | NE].
  - destruct (Qlt_le_dec (Qabs q) (2 ^ 1024)) as [L | G].
    + left. split; assumption.
    + right. intros [_ L]. apply (Qlt_not_le _ _ L G).
  - right. intros [E _]. contradiction.
Defined.

(** The number [m * 2 ^ s]. *)
Definition dyadic (m s : Z) : Q := inject_Z m * 2 ^ s.

(** ** The source of random draws *)

Definition source : Type := nat -> Q.

Definition unit_draws (g : source) : Prop := forall n : nat, 0 <= g n < 1.

Definition Rand (X : Type) : Type := source -> nat -> X * nat.

Definition ret {X : Type} (x : X) : Rand X := fun _ n => (x, n).

Definition bind {X Y : Type} (m : Rand X) (k : X -> Rand Y) : Rand Y :=
  fun g n => let (x, n') := m g n in k x g n'.

Notation "'let*' x ':=' m 'in' k" := (bind m (fun x => k))
  (at level 10, x name, m at level 100, k at level 200).

(** [Math.random()] *)
Definition Math_random : Rand Q := fun g n => (g n, S n).

(** The value computed by [m] when [n] draws have been consumed. *)
Definition value_of {X : Type} (m : Rand X) (g : source) (n : nat) : X :=
  fst (m g n).

(** ** Arrays

    An array is the list of its elements.  The element type comes with the
    value [undefined], which is what a read outside the array gives. *)

Class Undefined (V : Type) : Type := undefined : V.

(** [arr.length] *)
Definition len {V : Type} (arr : list V) : Q :=
  inject_Z (Z.of_nat (length arr)).

(** The array index a Number names, if any: the non-negative integers. *)
Definition index_of (k : Q) : option nat :=
  if Qeqb k (inject_Z (Qfloor k)) && Qle_bool 0 k
  then Some (Z.to_nat (Qfloor k))
  else None.

(** [arr[k]] as an expression. *)
Definition elem_get `{Undefined V} (arr : list V) (k : Q) : V :=
  match index_of k with
  | Some i => default undefined (arr !! i)
  | None => undefined
  end.

(** [arr[k] = v].  Writing past the end grows the array, the skipped
    positions reading [undefined].  A key that is no index names a
    property of the array object: the elements stay as they are (such
    properties themselves are not modelled). *)
Definition elem_set `{Undefined V} (arr : list V) (k : Q) (v : V) : list V :=
  match index_of k with
  | Some i =>
      if decide (i < length arr)%nat
      then <[i:=v]> arr
      else arr ++ replicate (i - length arr) undefined ++ [v]
  | None => arr
  end.

(** ** Strings

    A string is a [string] of the Standard Library; its characters are
    handled as a [list ascii]. *)

(** [s.split("")]: the one-character strings of [s]. *)
Definition split_chars (s : string) : list string :=
  map (fun c => String c EmptyString) (list_ascii_of_string s).

(** [arr.join("")] on an array of strings. *)
Definition join (arr : list string) : string :=
  foldr append EmptyString arr.

(** [s.split(sep)] for a separator of one character: the pieces between
    its occurrences, at least one. *)
Fixpoint split_at (sep : ascii) (s : string) : list string :=
  match s with
  | EmptyString => [EmptyString]
  | String c s' =>
      if Ascii.eqb c sep then EmptyString :: split_at sep s'
      else
        match split_at sep s' with
        | piece :: rest => String c piece :: rest
        | [] => [String c EmptyString]
        end
  end.

(** What an array of strings may give when read: a string or [undefined]. *)
Inductive strval : Type :=
  | SUndefined
  | SString (s : string).

#[export] Instance strval_undefined : Undefined strval := SUndefined.

(** The conversion to string that [+=] applies to its right operand. *)
Definition to_str (v : strval) : string :=
  match v with
  | SUndefined => "undefined"
  | SString s => s
  end.

(** [s.toUpperCase()] on ASCII letters. *)
Definition upper_char (c : ascii) : ascii :=
  let n := N_of_ascii c in
  if ((97 <=? n) && (n <=? 122))%N then ascii_of_N (n - 32) else c.

Definition toUpperCase (s : list ascii) : list ascii := map upper_char s.

(** [s.padStart(target, "0")], for the one-character filler [c]. *)
Definition padStart (s : list ascii) (target : nat) (c : ascii) : list ascii :=
  replicate (target - length s) c ++ s.

(** The digit of value [d < 16] as [Number.prototype.toString] prints it. *)
Definition hex_digit (d : N) : ascii :=
  if (d <? 10)%N then ascii_of_N (48 + d) else ascii_of_N (87 + d).

(** The base-16 digits of [n] in front of [acc], most significant first. *)
Fixpoint digits16 (fuel : nat) (n : N) (acc : list N) : list N :=
  match fuel with
  | O => acc
  | S fuel' =>
      let acc' := (n mod 16)%N :: acc in
      if (n / 16 =? 0)%N then acc' else digits16 fuel' (n / 16)%N acc'
  end.

(** [z.toString(16)] for an integer [z]. *)
Definition Z_toString16 (z : Z) : list ascii :=
  let n := Z.abs_N z in
  let digits := map hex_digit (digits16 (S (N.to_nat (N.log2 n))) n []) in
  if (z <? 0)%Z then "-"%char :: digits else digits.

(** [x.toString(16)].  A Number with a fractional part prints digits
    after a point, which are not modelled: [None]. *)
Definition Number_toString16 (x : Q) : option (list ascii) :=
  if Qeqb x (inject_Z (Qfloor x)) then Some (Z_toString16 (Qfloor x))
  else None.

(** White space and line ends that [parseInt] skips, among the code
    units below 256: space, tab to carriage return, no-break space. *)
Definition is_space (c : ascii) : bool :=
  let n := N_of_ascii c in
  ((n =? 32) || ((9 <=? n) && (n <=? 13)) || (n =? 160))%N.

Fixpoint trim_start (s : list ascii) : list ascii :=
  match s with
  | c :: s' => if is_space c then trim_start s' else s
  | [] => []
  end.

(** The value of a character as a digit of radix 16. *)
Definition digit_value (c : ascii) : option N :=
  let n := N_of_ascii c in
  if ((48 <=? n) && (n <=? 57))%N then Some (n - 48)%N
  else if ((65 <=? n) && (n <=? 70))%N then Some (n - 55)%N
  else if ((97 <=? n) && (n <=? 102))%N then Some (n - 87)%N
  else None.

(** The number written by the longest prefix of [s] made of digits, read
    after the digits worth [acc]; [None] when no digit was [seen]. *)
Fixpoint digits_prefix (s : list ascii) (acc : N) (seen : bool) : option N :=
  match s with
  | c :: s' =>
      match digit_value c with
      | Some d => digits_prefix s' (acc * 16 + d)%N true
      | None => if seen then Some acc else None
      end
  | [] => if seen then Some acc else None
  end.

(** The sign in front of the digits, and what follows it. *)
Definition strip_sign (s : list ascii) : Z * list ascii :=
  match s with
  | "-"%char :: s' => ((-1)%Z, s')
  | "+"%char :: s' => (1%Z, s')
  | _ => (1%Z, s)
  end.

(** The prefix ["0x"] or ["0X"], which radix 16 allows, is dropped. *)
Definition strip_0x (s : list ascii) : list ascii :=
  match s with
  | "0"%char :: "x"%char :: s' => s'
  | "0"%char :: "X"%char :: s' => s'
  | _ => s
  end.

(** [parseInt(s, 16)]; [None] is [NaN]. *)
Definition parseInt16 (s : list ascii) : option Z :=
  let '(sign, s) := strip_sign (trim_start s) in
  option_map (fun n => (sign * Z.of_N n)%Z)
    (digits_prefix (strip_0x s) 0 false).

(** ** Code that reads the same in src/utils.js and in part_000 *)

(** Draws under fuel: [None] when the fuel ran out. *)
Definition bind_opt {X Y : Type} (m : Rand (option X))
    (k : X -> Rand (option Y)) : Rand (option Y) :=
  let* r := m in
  match r with
  | Some x => k x
  | None => ret None
  end.

Notation "'let?' x ':=' m 'in' k" := (bind_opt m (fun x => k))
  (at level 10, x name, m at level 100, k at level 200).

(** The functions of [Math] that have no rational counterpart are taken
    from the host. *)
Class MathLib : Type := {
  Math_sqrt : Q -> Q;
  Math_log : Q -> Q;
  Math_cos : Q -> Q;
  Math_PI : Q;
  Math_pow : Q -> Q -> Q
}.

Module Shared.

(** utils.js:66-70, part_000:775-779 (and 152-156, 406-410):
    [while (value > max_val) value -= max_val - min_val;] *)
Fixpoint wrap_above (fuel : nat) (value min_val max_val : Q) : option Q :=
  match fuel with
  | O => None
  | S fuel' =>
      if Qltb max_val value
      then wrap_above fuel' (value - (max_val - min_val)) min_val max_val
      else Some value
  end.

(** [while (value < min_val) value += max_val - min_val;] *)
Fixpoint wrap_below (fuel : nat) (value min_val max_val : Q) : option Q :=
  match fuel with
  | O => None
  | S fuel' =>
      if Qltb value min_val
      then wrap_below fuel' (value + (max_val - min_val)) min_val max_val
      else Some value
  end.

(** [wrap(value, min_val, max_val)]; each loop may test its condition
    [fuel] times.  The steps are exact here; [Binary64.wrap] below rounds
    them. *)
Definition wrap (fuel : nat) (value min_val max_val : Q) : option Q :=
  match wrap_above fuel value min_val max_val with
  | Some value' => wrap_below fuel value' min_val max_val
  | None => None
  end.

(** [u = 0; while (u == 0) u = Math.random();] *)
Fixpoint draw_nonzero (fuel : nat) : Rand (option Q) :=
  match fuel with
  | O => ret None
  | S fuel' =>
      let* u := Math_random in
      if Qeqb u 0 then draw_nonzero fuel' else ret (Some u)
  end.

(** utils.js:50-52, part_000:757-761 (and 136-138, 388-392), for
    [old_min] other than [old_max]. *)
Definition map (value old_min old_max new_min new_max : Q) : Q :=
  (value - old_min) * (new_max - new_min) / (old_max - old_min) + new_min.

End Shared.

(** ** src/utils.js *)

Module UtilsJs.

(** The third branch of [random_int]. *)
Definition random_int_between (a b : Q) : Rand Q :=
  let* u := Math_random in ret (Math_floor (u * (b - a)) + a).

(** utils.js:7-11 *)
Definition random_int (a b : option Q) : Rand (option Q) :=
  match a, b with
  | None, None => let* r := random_int_between 0 1 in ret (Some r)
  | Some a, None => let* r := random_int_between 0 a in ret (Some r)
  | Some a, Some b => let* r := random_int_between a b in ret (Some r)
  | None, Some _ => ret None
  end.

(** utils.js:17-19.  [arr[undefined]] is [undefined]. *)
Definition random_from_array `{Undefined V} (arr : list V) : Rand V :=
  let* k := random_int (Some (len arr - 1)) None in
  ret (match k with Some k => elem_get arr k | None => undefined end).

(** utils.js:43-48, the body of the loop for the counter [i]: the right
    hand side [[arr[j], arr[i]]] is read first, then [arr[i]] and [arr[j]]
    are written in this order. *)
Definition shuffle_step `{Undefined V} (i : nat) (arr : list V)
  : Rand (list V) :=
  let i := inject_Z (Z.of_nat i) in
  let* u := Math_random in
  let j := Math_floor (u * (i + 1)) in
  let aj := elem_get arr j in
  let ai := elem_get arr i in
  ret (elem_set (elem_set arr i aj) j ai).

(** The loop [for (let i = ...; i > 0; i--)], entered with counter [i]. *)
Fixpoint shuffle_loop `{Undefined V} (i : nat) (arr : list V)
  : Rand (list V) :=
  match i with
  | O => ret arr
  | S i' => let* arr' := shuffle_step i arr in shuffle_loop i' arr'
  end.

(** utils.js:43-48.  The function returns nothing; its effect is the new
    content of [arr].  On the empty array the counter starts at [-1] and,
    as with [0], the loop is not entered. *)
Definition shuffle_array `{Undefined V} (arr : list V) : Rand (list V) :=
  shuffle_loop (length arr - 1) arr.

(** utils.js:62-64 (the bounds default to 0 and 1). *)
Definition constrain (x min_val max_val : Q) : Q :=
  Qmax (Qmin x max_val) min_val.

End UtilsJs.

(** ** src/unnamed/part_000, first revision (lines 1-230) *)

Module Part0First.

(** The third branch of [random_int], where the recursive calls land. *)
Definition random_int_between (a b : Q) : Rand Q :=
  let* u := Math_random in ret (Math_floor (u * (b - a)) + a).

(** part_000:25-29 *)
Definition random_int (a b : option Q) : Rand (option Q) :=
  match a, b with
  | None, None => let* r := random_int_between 0 2 in ret (Some r)
  | Some a, None => let* r := random_int_between 0 a in ret (Some r)
  | Some a, Some b => let* r := random_int_between a b in ret (Some r)
  | None, Some _ => ret None
  end.

(** part_000:80-82 *)
Definition random_from_array `{Undefined V} (a : list V) : Rand V :=
  let* k := random_int (Some (len a)) None in
  ret (match k with Some k => elem_get a k | None => undefined end).

End Part0First.

(** ** src/unnamed/part_000, third revision (lines 599-959) *)

Module Part0.

(** part_000:689-691 *)
Definition random_from_array `{Undefined V} (a : list V) : Rand V :=
  let* u := Math_random in ret (elem_get a (Math_floor (u * len a))).

(** An element tagged with its sort key, [{ val: x, order: Math.random() }]. *)
Record keyed (V : Type) : Type := Keyed { val : V; order : Q }.
Arguments Keyed {V} _ _.
Arguments val {V} _.
Arguments order {V} _.

(** [.map((x) => ({ val: x, order: Math.random() }))]: one draw per
    element, from the first to the last. *)
Fixpoint tag_with_order {V : Type} (a : list V) : Rand (list (keyed V)) :=
  match a with
  | [] => ret []
  | x :: a' =>
      let* u := Math_random in
      let* rest := tag_with_order a' in
      ret (Keyed x u :: rest)
  end.

(** [.sort((a, b) => a.order - b.order)]: the stable sort by ascending
    [order] that ECMAScript prescribes for a consistent comparator. *)
Fixpoint insert_by_order {V : Type} (x : keyed V) (l : list (keyed V))
  : list (keyed V) :=
  match l with
  | [] => [x]
  | y :: l' =>
      if Qle_bool (order x) (order y) then x :: y :: l'
      else y :: insert_by_order x l'
  end.

Definition sort_by_order {V : Type} (l : list (keyed V)) : list (keyed V) :=
  foldr insert_by_order [] l.

(** The expression [a.map(...).sort(...).map((x) => x.val)]: a new array. *)
Definition shuffled {V : Type} (a : list V) : Rand (list V) :=
  let* tagged := tag_with_order a in
  ret (map val (sort_by_order tagged)).

(** part_000:698-702.  The new array is the value of an expression
    statement and is dropped; [a] itself is never written. *)
Definition shuffle_array {V : Type} (a : list V) : Rand (list V) :=
  let* _ := shuffled a in ret a.

(** part_000:906-912 *)
Definition shuffle_string (s : string) : Rand string :=
  let* chars := shuffled (split_chars s) in ret (join chars).

(** The array [characters] of [random_string]. *)
Definition alphabet : string :=
  "ABCDEFGHIJKLMNOPQRSTUVWXYZabcdefghijklmnopqrstuvwxyz0123456789".

Definition characters : list strval := map SString (split_chars alphabet).

(** The loop [for (let i = 0; i < len; i++) result += ...], with [count]
    passes to go. *)
Fixpoint random_string_loop (count : nat) (result : string) : Rand string :=
  match count with
  | O => ret result
  | S count' =>
      let* c := random_from_array characters in
      random_string_loop count' (result ++ to_str c)%string
  end.

(** part_000:920-926 (and 557-563).  The test [i < len] holds for the
    integers [i] below the ceiling of [len]. *)
Definition random_string (len : Q) : Rand string :=
  random_string_loop (Z.to_nat (Qceiling len)) EmptyString.

(** The integer part of a Number. *)
Definition Qtrunc (x : Q) : Z :=
  if Qle_bool 0 x then Qfloor x else Qceiling x.

(** [a % b], the remainder with the sign of [a], for [b] other than zero. *)
Definition remainder (a b : Q) : Q := a - b * inject_Z (Qtrunc (a / b)).

Record point : Type := Point { x : Q; y : Q }.

(** part_000:832-836 *)
Definition xy_from_index (i width : Q) : point :=
  let x := remainder i width in
  let y := Math_floor (i / width) in
  {| x := x; y := y |}.

(** part_000:850-852 *)
Definition index_from_xy (x y width : Q) : Q := x + width * y.

(** part_000:875-880 *)
Definition dec_to_hex (dec : Q) (padding : nat) (prefix round : bool)
  : option string :=
  let dec := if round then Math_floor dec else dec in
  match Number_toString16 dec with
  | Some digits =>
      let hex := toUpperCase (padStart digits padding "0"%char) in
      let hex := if prefix then "0"%char :: "x"%char :: hex else hex in
      Some (string_of_list_ascii hex)
  | None => None
  end.

(** part_000:898 *)
Definition hex_to_dec (hex : string) : option Z :=
  parseInt16 (list_ascii_of_string hex).

(** part_000:946-948; the degree [n] is a natural number. *)
Definition poly_ease_in (x : Q) (n : nat) : Q := x ^ Z.of_nat n.

(** part_000:957-959 *)
Definition poly_ease_out (x : Q) (n : nat) : Q := 1 - (1 - x) ^ Z.of_nat n.

(** part_000:628-638 *)
Definition random_int (a b : option Q) : Rand Q :=
  let '(a, b) :=
    match a, b with
    | None, None => (Some 0, Some 2)
    | Some _, None => (Some 0, a)
    | _, _ => (a, b)
    end in
  let* u := Math_random in
  ret (Math_floor (u * (default 0 b - default 0 a)) + default 0 a).

(** part_000:793-795 (the bounds default to 0 and 1). *)
Definition clamp (value min_val max_val : Q) : Q :=
  Qmin (Qmax min_val value) max_val.

(** part_000:814-819.  [getPropertyValue] stands for the computed style
    of the document element, which the browser provides. *)
Definition get_css_var (getPropertyValue : string -> string)
    (property : string) : string :=
  join (split_at " "%char (getPropertyValue property)).

(** The alternatives of the pattern of [is_mobile]. *)
Definition mobile_names : list string :=
  ["Android"; "webOS"; "iPhone"; "iPad"; "iPod"; "BlackBerry"; "IEMobile";
   "Opera Mini"]%string.

(** Whether [s] starts with [name], letter case apart (the flag [i]). *)
Fixpoint starts_with_ci (name s : list ascii) : bool :=
  match name, s with
  | [], _ => true
  | c :: name', d :: s' =>
      Ascii.eqb (upper_char c) (upper_char d) && starts_with_ci name' s'
  | _ :: _, [] => false
  end.

(** Whether [name] occurs somewhere in [s], letter case apart. *)
Fixpoint occurs_ci (name s : list ascii) : bool :=
  starts_with_ci name s
  || match s with
     | [] => false
     | _ :: s' => occurs_ci name s'
     end.

(** part_000:802-806 (and utils.js:72-74), on the string
    [navigator.userAgent]. *)
Definition is_mobile (userAgent : string) : bool :=
  existsb
    (fun name =>
       occurs_ci (list_ascii_of_string name) (list_ascii_of_string userAgent))
    mobile_names.

(** part_000:935-938 *)
Definition poly_ease_inout (x : Q) (n : nat) : Q :=
  if Qltb x (1 # 2) then x ^ Z.of_nat n * 2 ^ (Z.of_nat n - 1)
  else 1 - (- (2) * x + 2) ^ Z.of_nat n / 2 ^ (Z.of_nat n - 1).

End Part0.

(** ** src/unnamed/part_000, second revision (lines 231-597) *)

Module Part0Prev.

(** part_000:584-586 *)
Definition poly_ease_in (x : Q) (n : nat) : Q :=
  2 ^ (Z.of_nat n - 1) * x ^ Z.of_nat n.

(** part_000:595-597 *)
Definition poly_ease_out (x : Q) (n : nat) : Q :=
  1 - (- (2) * x + 2) ^ Z.of_nat n / 2.

(** part_000:572-576 *)
Definition poly_ease_inout (x : Q) (n : nat) : Q :=
  if Qltb x (1 # 2) then 2 ^ (Z.of_nat n - 1) * x ^ Z.of_nat n
  else 1 - (- (2) * x + 2) ^ Z.of_nat n / 2.

End Part0Prev.

(** ** The functions whose properties depend on rounding *)

Module Binary64.

Module UtilsJs.

(** The third branch of [random], [Math.random() * (b - a) + a]; the two
    recursive calls [random(0, 1)] and [random(0, a)] land in it. *)
Definition random_between (a b : Q) : Rand Q :=
  let* u := Math_random in ret (fl (fl (u * fl (b - a)) + a)).

(** utils.js:1-5.  No branch is taken when only [b] is given, and the
    arrow function then returns [undefined]. *)
Definition random (a b : option Q) : Rand (option Q) :=
  match a, b with
  | None, None => let* r := random_between 0 1 in ret (Some r)
  | Some a, None => let* r := random_between 0 a in ret (Some r)
  | Some a, Some b => let* r := random_between a b in ret (Some r)
  | None, Some _ => ret None
  end.

(** utils.js:13-15 *)
Definition random_interval (average interval : option Q) : Rand (option Q) :=
  let average := default 0 average in
  let interval := default 1 interval in
  random (Some (fl (average - interval))) (Some (fl (average + interval))).

End UtilsJs.

Module Part0.

(** part_000:607-617.  [null] counts as [0] in the final arithmetic, which
    is what happens when only [b] is given. *)
Definition random (a b : option Q) : Rand Q :=
  let '(a, b) :=
    match a, b with
    | None, None => (Some 0, Some 1)
    | Some _, None => (Some 0, a)
    | _, _ => (a, b)
    end in
  let* u := Math_random in
  ret (fl (fl (u * fl (default 0 b - default 0 a)) + default 0 a)).

(** part_000:649-651 *)
Definition random_interval (average interval : option Q) : Rand Q :=
  let average := default (1 # 2) average in
  let interval := default (1 # 2) interval in
  let* u := Math_random in
  ret (fl (fl (u * fl (interval * 2)) + fl (average - interval))).

(** part_000:726-728 *)
Definition manhattan_dist (x1 y1 x2 y2 : Q) : Q :=
  fl (Qabs (fl (x1 - x2)) + Qabs (fl (y1 - y2))).

End Part0.

(** utils.js:66-70, part_000:775-779 (and 152-156, 406-410):
    [while (value > max_val) value -= max_val - min_val;] *)
Fixpoint wrap_above (fuel : nat) (value min_val max_val : Q) : option Q :=
  match fuel with
  | O => None
  | S fuel' =>
      if Qltb max_val value
      then wrap_above fuel' (fl (value - fl (max_val - min_val)))
             min_val max_val
      else Some value
  end.

(** [while (value < min_val) value += max_val - min_val;] *)
Fixpoint wrap_below (fuel : nat) (value min_val max_val : Q) : option Q :=
  match fuel with
  | O => None
  | S fuel' =>
      if Qltb value min_val
      then wrap_below fuel' (fl (value + fl (max_val - min_val)))
             min_val max_val
      else Some value
  end.

(** [wrap(value, min_val, max_val)]; each loop may test its condition
    [fuel] times. *)
Definition wrap (fuel : nat) (value min_val max_val : Q) : option Q :=
  match wrap_above fuel value min_val max_val with
  | Some value' => wrap_below fuel value' min_val max_val
  | None => None
  end.

(** The Box-Muller value moved to the unit interval:
    [num = Math.sqrt(-2.0 * Math.log(u)) * Math.cos(2.0 * Math.PI * v);]
    [num = num / 10.0 + 0.5;] *)
Definition box_muller `{MathLib} (u v : Q) : Q :=
  let num :=
    fl (Math_sqrt (fl (- (2) * Math_log u))
        * Math_cos (fl (fl (2 * Math_PI) * v))) in
  fl (fl (num / 10) + (1 # 2)).

(** utils.js:21-41, part_000:661-681 (and 52-72, 292-312).  The fuel
    bounds the depth of the resampling recursion and the tests of each of
    the two [while] loops. *)
Fixpoint random_normal `{MathLib} (fuel : nat) (min max skew : option Q)
  : Rand (option Q) :=
  match fuel with
  | O => ret None
  | S fuel' =>
      let? u := Shared.draw_nonzero fuel in
      let? v := Shared.draw_nonzero fuel in
      let num := box_muller u v in
      if Qltb 1 num || Qltb num 0
      then random_normal fuel' min max skew
      else
        let num := Math_pow num (default 0 skew) in
        let num := fl (num * fl (default 1 max - default 0 min)) in
        ret (Some (fl (num + default 0 min)))
  end.

End Binary64.

(** ** Inputs used to run the model *)

#[export] Instance option_undefined {A : Type} : Undefined (option A) := None.

(** A source whose every draw is 0.5. *)
Definition half_draws : source := fun _ => 1 # 2.

(** A source whose every draw is [1 - 2 ^ -52], the largest value of a
    generator that fills the 52 fraction bits of a double in [[1, 2)]
    and subtracts 1. *)
Definition top_draws : source := fun _ => 1 - (1 # 2) ^ 52.

(** A source whose every draw is the double 0.95. *)
Definition high_draws : source := fun _ => fl (95 # 100).

(** Rational stand-ins for the host functions, whose power is exact on
    integer exponents. *)
Definition rational_math : MathLib := {|
  Math_sqrt := fun _ => 1;
  Math_log := fun _ => 0;
  Math_cos := fun _ => 1;
  Math_PI := 3;
  Math_pow := fun x s => x ^ Qfloor s
|}.

(** The letters and digits of ASCII. *)
Definition alphanumeric (c : ascii) : bool :=
  let n := N_of_ascii c in
  (((65 <=? n) && (n <=? 90)) || ((97 <=? n) && (n <=? 122))
   || ((48 <=? n) && (n <=? 57)))%N.

(** How a call ends.  No function of the library contains a [throw], and
    the operations they apply to numbers, strings and arrays do not
    throw either: a call always returns. *)
Inductive completion (X : Type) : Type :=
  | Returns (x : X)
  | Throws (error : string).
Arguments Returns {X} _.
Arguments Throws {X} _.

Definition run {X : Type} (m : Rand X) (g : source) (n : nat) : completion X :=
  Returns (value_of m g n).

(** ** Notions used to state the properties *)

(** Tests of its condition that suffice for either loop of [wrap]. *)
Definition wrap_fuel (value min_val max_val : Q) : nat :=
  S (Z.to_nat (Qceiling (Qabs (value - min_val) / (max_val - min_val)))).

(** The number a list of base-16 digits writes, read after the digits
    worth [a]. *)
Definition from_digits (l : list N) (a : N) : N :=
  fold_left (fun a d => (a * 16 + d)%N) l a.

(** A digit as it stands in the result of [dec_to_hex]. *)
Definition upper_hex (d : N) : ascii := upper_char (hex_digit d).

(** Case analysis on a digit [d] known to be below 16. *)
Ltac digit_cases d :=
  let p := fresh "p" in
  destruct d as [|p];
    [|do 4 (try (destruct p as [p|p|]; try (exfalso; lia)))].

(** * Properties *)

Lemma Qltb_lt (x y : Q) : Qltb x y = true <-> x < y.
Proof.
  unfold Qltb. rewrite negb_true_iff, <- not_true_iff_false, Qle_bool_iff.
  split; [apply Qnot_le_lt | apply Qlt_not_le].
Qed.

(** ** Rounding *)

Lemma two_power_pos (z : Z) : 0 < 2 ^ z.
Proof. apply Qpower_0_lt. reflexivity. Qed.

Lemma two_power_ratio (a b : Z) :
  (0 <= a)%Z -> (0 <= b)%Z -> 2 ^ (a - b) == (2 ^ a)%Z # Z.to_pos (2 ^ b).
Proof.
  intros Ha Hb. rewrite Qpower_minus by discriminate.
  rewrite (Qmake_Qdiv (2 ^ a) (Z.to_pos (2 ^ b))).
  rewrite Z2Pos.id by (apply Z.pow_pos_nonneg; lia).
  change 2 with (inject_Z 2). now rewrite <- !Zpower_Qpower.
Qed.

Lemma two_power_lt (x y : Z) : 2 ^ x < 2 ^ y -> (x < y)%Z.
Proof. intros H. apply (Qpower_lt_compat_l_inv 2); [exact H | reflexivity]. Qed.

(** [ilog2 q] is the exponent of [q]. *)
Lemma ilog2_spec (q : Q) :
  ~ q == 0 -> 2 ^ ilog2 q <= Qabs q < 2 ^ (ilog2 q + 1).
Proof.
  intros Hq. destruct q as [n d].
  assert (Hn : (0 < Z.abs n)%Z).
  { assert (n <> 0%Z); [|lia]. intros ->. apply Hq. reflexivity. }
  unfold ilog2. cbn [Qnum Qden].
  set (a := Z.log2 (Z.abs n)). set (b := Z.log2 (Z.pos d)).
  assert (Ha : (0 <= a)%Z) by apply Z.log2_nonneg.
  assert (Hb : (0 <= b)%Z) by apply Z.log2_nonneg.
  destruct (Z.log2_spec (Z.abs n) Hn) as [Ha1 Ha2]. fold a in Ha1, Ha2.
  destruct (Z.log2_spec (Z.pos d) (Pos2Z.is_pos d)) as [Hb1 Hb2].
  fold b in Hb1, Hb2.
  assert (Hpa : (0 < 2 ^ a)%Z) by (apply Z.pow_pos_nonneg; lia).
  assert (Hpb : (0 < 2 ^ b)%Z) by (apply Z.pow_pos_nonneg; lia).
  assert (Hup : Qabs (n # d) < 2 ^ (a - b + 1)).
  { replace (a - b + 1)%Z with (a + 1 - b)%Z by lia.
    rewrite two_power_ratio by lia.
    unfold Qabs, Qlt. cbn [Qnum Qden]. rewrite Z2Pos.id by exact Hpb.
    unfold Z.succ in Ha2. nia. }
  assert (Hlo : 2 ^ (a - b - 1) < Qabs (n # d)).
  { replace (a - b - 1)%Z with (a - (b + 1))%Z by lia.
    rewrite two_power_ratio by lia.
    unfold Qabs, Qlt. cbn [Qnum Qden].
    rewrite Z2Pos.id by (apply Z.pow_pos_nonneg; lia).
    unfold Z.succ in Hb2. nia. }
  destruct (Qle_bool (2 ^ (a - b)) (Qabs (n # d))) eqn:E.
  - apply Qle_bool_iff in E. split; [exact E | exact Hup].
  - split; [apply Qlt_le_weak; exact Hlo|].
    replace (a - b - 1 + 1)%Z with (a - b)%Z by lia.
    apply Qnot_le_lt. intros H. apply Qle_bool_iff in H. congruence.
Qed.

Lemma ilog2_unique (q : Q) (e : Z) :
  2 ^ e <= Qabs q < 2 ^ (e + 1) -> ilog2 q = e.
Proof.
  intros [Hlo Hup].
  assert (Hq : ~ q == 0).
  { intros E. rewrite E in Hlo. pose proof (two_power_pos e). 
    change (Qabs 0) with 0 in Hlo. lra. }
  destruct (ilog2_spec q Hq) as [Hlo' Hup'].
  assert (e < ilog2 q + 1)%Z by (apply two_power_lt; lra).
  assert (ilog2 q < e + 1)%Z by (apply two_power_lt; lra).
  lia.
Qed.


#[local] Instance fl_proper : Proper (Qeq ==> eq) fl.
Proof. intros p q E. unfold fl. now rewrite (Qred_complete p q E). Qed.

#[local] Instance rne_proper : Proper (Qeq ==> eq) rne.
Proof.
  intros p q E. unfold rne. rewrite (Qfloor_comp p q E).
  assert (E' : p - inject_Z (Qfloor q) == q - inject_Z (Qfloor q))
    by (rewrite E; reflexivity).
  now rewrite (Qcompare_comp _ _ E' (1 # 2) (1 # 2) (Qeq_refl _)).
Qed.

Lemma rne_integer (m : Z) : rne (inject_Z m) = m.
Proof.
  unfold rne. rewrite Qfloor_Z.
  assert (E : Qcompare (inject_Z m - inject_Z m) (1 # 2) = Lt).
  { apply Qlt_alt. assert (E : inject_Z m - inject_Z m == 0) by ring.
    rewrite E. reflexivity. }
  now rewrite E.
Qed.

Lemma ulp_pos (q : Q) : 0 < ulp q.
Proof. apply two_power_pos. Qed.

Lemma ulp_proper (p q : Q) : ~ p == 0 -> p == q -> ulp p = ulp q.
Proof.
  intros Hp E. unfold ulp. f_equal. f_equal. f_equal.
  apply ilog2_unique. rewrite E. apply ilog2_spec. now rewrite <- E.
Qed.

(** Rounding without the reduction of the fraction. *)
Lemma fl_unfold (q : Q) :
  ~ q == 0 -> fl q == inject_Z (rne (q / ulp q)) * ulp q.
Proof.
  intros Hq. unfold fl, fl_canonical.
  pose proof (Qred_correct q) as E.
  assert (Hr : ~ Qred q == 0) by (rewrite E; exact Hq).
  destruct (Qeq_bool (Qred q) 0) eqn:E0.
  { now apply Qeq_bool_iff in E0. }
  rewrite (ulp_proper (Qred q) q Hr E).
  assert (E' : Qred q / ulp q == q / ulp q) by (rewrite E; reflexivity).
  now rewrite (rne_proper _ _ E').
Qed.

Lemma fl_zero (q : Q) : q == 0 -> fl q == 0.
Proof. intros E. rewrite (fl_proper _ _ E). reflexivity. Qed.

Lemma two_power_integer (j : Z) : (0 <= j)%Z -> 2 ^ j == inject_Z (2 ^ j).
Proof. intros Hj. now rewrite Zpower_Qpower. Qed.

(** A number [m * 2 ^ s] with [|m| < 2 ^ 53] and [s >= -1074] is not
    rounded. *)
Lemma fl_dyadic (m s : Z) :
  (Z.abs m < 2 ^ 53)%Z -> (-1074 <= s)%Z -> fl (dyadic m s) == dyadic m s.
Proof.
  unfold dyadic. intros Hm Hs. destruct (Z.eq_dec m 0%Z) as [-> | Hnz].
  { rewrite fl_zero; ring. }
  set (q := inject_Z m * 2 ^ s).
  set (k := Z.log2 (Z.abs m)).
  assert (Hk : (0 <= k < 53)%Z).
  { split; [apply Z.log2_nonneg|]. apply Z.log2_lt_pow2; lia. }
  destruct (Z.log2_spec (Z.abs m)) as [Hk1 Hk2]; [lia|]. fold k in Hk1, Hk2.
  pose proof (two_power_pos s) as Hps.
  assert (Habs : Qabs q == inject_Z (Z.abs m) * 2 ^ s).
  { unfold q. rewrite Qabs_Qmult, (Qabs_pos (2 ^ s)) by lra. reflexivity. }
  assert (Hq : ~ q == 0).
  { intros E. rewrite E in Habs. change (Qabs 0) with 0 in Habs.
    assert (0 < inject_Z (Z.abs m)).
    { change 0 with (inject_Z 0). rewrite <- Zlt_Qlt. lia. }
    assert (0 < inject_Z (Z.abs m) * 2 ^ s) by (apply Qmult_lt_0_compat; lra).
    lra. }
  assert (He : ilog2 q = (k + s)%Z).
  { apply ilog2_unique. rewrite Habs.
    replace (k + s + 1)%Z with ((k + 1) + s)%Z by lia.
    rewrite (Qpower_plus 2 k s), (Qpower_plus 2 (k + 1) s) by discriminate.
    rewrite (two_power_integer k), (two_power_integer (k + 1)) by lia.
    split.
    - apply Qmult_le_compat_r; [|lra]. now rewrite <- Zle_Qle.
    - apply Qmult_lt_compat_r; [lra|]. rewrite <- Zlt_Qlt. exact Hk2. }
  rewrite (fl_unfold q Hq). unfold ulp. rewrite He.
  set (E := Z.max (k + s) (-1022)).
  set (j := (s - E + 52)%Z).
  assert (Hj : (0 <= j)%Z) by (unfold j, E; lia).
  assert (Hu : 2 ^ s == inject_Z (2 ^ j) * 2 ^ (E - 52)).
  { rewrite <- two_power_integer by lia.
    rewrite <- Qpower_plus by discriminate. unfold j.
    replace (s - E + 52 + (E - 52))%Z with s by lia. reflexivity. }
  pose proof (two_power_pos (E - 52)) as Hpe.
  assert (Hd : q / 2 ^ (E - 52) == inject_Z (m * 2 ^ j)).
  { unfold q. rewrite Hu, inject_Z_mult. field. lra. }
  rewrite (rne_proper _ _ Hd), rne_integer.
  unfold q. rewrite Hu, inject_Z_mult. ring.
Qed.

Lemma Qfloor_unique (x : Q) (k : Z) :
  Qfloor x = k <-> inject_Z k <= x < inject_Z k + 1.
Proof.
  split.
  - intros <-. split; [apply Qfloor_le|].
    pose proof (Qlt_floor x) as Hx. rewrite inject_Z_plus in Hx. exact Hx.
  - intros [Hlo Hhi].
    assert (H1 : (k <= Qfloor x)%Z).
    { rewrite <- (Qfloor_Z k). now apply Qfloor_resp_le. }
    assert (H2 : (Qfloor x < k + 1)%Z).
    { rewrite Zlt_Qlt, inject_Z_plus.
      apply Qle_lt_trans with x; [apply Qfloor_le | exact Hhi]. }
    lia.
Qed.

Lemma rne_bounds (x : Q) : (Qfloor x <= rne x <= Qfloor x + 1)%Z.
Proof.
  unfold rne.
  destruct (Qcompare (x - inject_Z (Qfloor x)) (1 # 2));
    [destruct (Z.even (Qfloor x))| |]; lia.
Qed.

Ltac compare_facts :=
  repeat match goal with
    | H : Qcompare _ _ = Eq |- _ => apply (proj2 (Qeq_alt _ _)) in H
    | H : Qcompare _ _ = Lt |- _ => apply (proj2 (Qlt_alt _ _)) in H
    | H : Qcompare _ _ = Gt |- _ => apply (proj2 (Qgt_alt _ _)) in H
    end.

Lemma rne_monotone (x y : Q) : x <= y -> (rne x <= rne y)%Z.
Proof.
  intros Hxy. pose proof (Qfloor_resp_le _ _ Hxy) as Hf.
  destruct (Z.eq_dec (Qfloor x) (Qfloor y)) as [E | NE].
  - unfold rne. rewrite E.
    destruct (Qcompare (x - inject_Z (Qfloor y)) (1 # 2)) eqn:Cx;
      destruct (Qcompare (y - inject_Z (Qfloor y)) (1 # 2)) eqn:Cy;
      try (destruct (Z.even (Qfloor y)); lia); try lia;
      compare_facts; exfalso; lra.
  - pose proof (rne_bounds x). pose proof (rne_bounds y). lia.
Qed.

Lemma rne_opp (x : Q) : rne (- x) = (- rne x)%Z.
Proof.
  set (f := Qfloor x).
  pose proof (Qfloor_le x) as H1. pose proof (Qlt_floor x) as H2.
  rewrite inject_Z_plus in H2. change (inject_Z 1) with 1 in H2.
  fold f in H1, H2.
  destruct (Qeq_dec x (inject_Z f)) as [E | NE].
  - assert (E' : - x == inject_Z (- f)) by (rewrite inject_Z_opp, E; reflexivity).
    now rewrite (rne_proper _ _ E'), (rne_proper _ _ E), !rne_integer.
  - assert (Hlt : inject_Z f < x).
    { destruct (Qlt_le_dec (inject_Z f) x) as [H | H]; [exact H|].
      exfalso. apply NE. lra. }
    assert (Hf : Qfloor (- x) = (- f - 1)%Z).
    { apply Qfloor_unique. unfold Z.sub.
      rewrite inject_Z_plus, !inject_Z_opp. change (inject_Z 1) with 1. lra. }
    unfold rne. rewrite Hf. fold f.
    assert (Ed : - x - inject_Z (- f - 1) == 1 - (x - inject_Z f)).
    { unfold Z.sub. rewrite inject_Z_plus, !inject_Z_opp.
      change (inject_Z 1) with 1. ring. }
    rewrite (Qcompare_comp _ _ Ed (1 # 2) (1 # 2) (Qeq_refl _)).
    destruct (Qcompare (x - inject_Z f) (1 # 2)) eqn:Cx.
    + compare_facts.
      assert (C : Qcompare (1 - (x - inject_Z f)) (1 # 2) = Eq).
      { apply (proj1 (Qeq_alt _ _)). rewrite Cx. reflexivity. }
      rewrite C. replace (- f - 1)%Z with (- (f + 1))%Z by lia.
      rewrite Z.even_opp, Z.even_add. cbn [Z.even].
      destruct (Z.even f); cbn; lia.
    + compare_facts.
      assert (C : Qcompare (1 - (x - inject_Z f)) (1 # 2) = Gt).
      { apply (proj1 (Qgt_alt _ _)). lra. }
      rewrite C. lia.
    + compare_facts.
      assert (C : Qcompare (1 - (x - inject_Z f)) (1 # 2) = Lt).
      { apply (proj1 (Qlt_alt _ _)). lra. }
      rewrite C. lia.
Qed.

Lemma ulp_opp (q : Q) : ~ q == 0 -> ulp (- q) = ulp q.
Proof.
  intros Hq. unfold ulp. f_equal. f_equal. f_equal.
  apply ilog2_unique. rewrite Qabs_opp. now apply ilog2_spec.
Qed.

(** Rounding is odd, keeps the sign and keeps the order. *)
Lemma fl_opp (q : Q) : fl (- q) == - fl q.
Proof.
  destruct (Qeq_dec q 0) as [E | Hq].
  - rewrite !fl_zero; [reflexivity | exact E | rewrite E; reflexivity].
  - assert (Hq' : ~ - q == 0) by (intros E; apply Hq; lra).
    rewrite (fl_unfold _ Hq'), (fl_unfold _ Hq), (ulp_opp q Hq).
    assert (E : - q / ulp q == - (q / ulp q)).
    { field. pose proof (ulp_pos q). lra. }
    rewrite (rne_proper _ _ E), rne_opp, inject_Z_opp. ring.
Qed.

Lemma fl_nonneg (q : Q) : 0 <= q -> 0 <= fl q.
Proof.
  intros H0. destruct (Qeq_dec q 0) as [E | Hq].
  - rewrite (fl_zero q E). lra.
  - rewrite (fl_unfold q Hq). pose proof (ulp_pos q) as Hu.
    apply Qmult_le_0_compat; [|lra].
    change 0 with (inject_Z 0). rewrite <- Zle_Qle.
    rewrite <- (rne_integer 0). apply rne_monotone.
    change (inject_Z 0) with 0. apply Qle_shift_div_l; lra.
Qed.

Lemma ulp_scale (q : Q) :
  ulp q * inject_Z (2 ^ 53) == 2 ^ (Z.max (ilog2 q) (-1022) + 1).
Proof.
  unfold ulp. rewrite <- two_power_integer by lia.
  rewrite <- Qpower_plus by discriminate. f_equiv. lia.
Qed.

Lemma scaled_below (q : Q) :
  ~ q == 0 -> Qabs q / ulp q < inject_Z (2 ^ 53).
Proof.
  intros Hq. pose proof (ulp_pos q) as Hu.
  apply Qlt_shift_div_r; [exact Hu|].
  rewrite Qmult_comm, ulp_scale.
  destruct (ilog2_spec q Hq) as [_ Hup].
  eapply Qlt_le_trans; [exact Hup|].
  apply Qpower_le_compat_l; [lia | discriminate].
Qed.

Lemma scaled_above (q : Q) :
  ~ q == 0 -> (-1022 <= ilog2 q)%Z -> inject_Z (2 ^ 52) <= Qabs q / ulp q.
Proof.
  intros Hq He. pose proof (ulp_pos q) as Hu.
  apply Qle_shift_div_l; [exact Hu|].
  unfold ulp. rewrite Z.max_l by lia.
  rewrite <- two_power_integer by lia.
  rewrite <- Qpower_plus by discriminate.
  replace (52 + (ilog2 q - 52))%Z with (ilog2 q) by lia.
  now apply ilog2_spec.
Qed.

Lemma fl_below_power (q : Q) :
  0 < q -> fl q <= 2 ^ (Z.max (ilog2 q) (-1022) + 1).
Proof.
  intros H0. assert (Hq : ~ q == 0) by lra.
  rewrite (fl_unfold q Hq), <- ulp_scale, (Qmult_comm (ulp q)).
  pose proof (ulp_pos q) as Hu.
  apply Qmult_le_compat_r; [|lra].
  rewrite <- Zle_Qle, <- (rne_integer (2 ^ 53)).
  apply rne_monotone, Qlt_le_weak.
  pose proof (scaled_below q Hq) as H. rewrite Qabs_pos in H by lra. exact H.
Qed.

Lemma fl_above_power (q : Q) :
  0 < q -> (-1022 <= ilog2 q)%Z -> 2 ^ ilog2 q <= fl q.
Proof.
  intros H0 He. assert (Hq : ~ q == 0) by lra.
  rewrite (fl_unfold q Hq). pose proof (ulp_pos q) as Hu.
  apply Qle_trans with (inject_Z (2 ^ 52) * ulp q).
  - unfold ulp. rewrite Z.max_l by lia.
    rewrite <- two_power_integer by lia.
    rewrite <- Qpower_plus by discriminate.
    replace (52 + (ilog2 q - 52))%Z with (ilog2 q) by lia. lra.
  - apply Qmult_le_compat_r; [|lra].
    rewrite <- Zle_Qle, <- (rne_integer (2 ^ 52)).
    apply rne_monotone.
    pose proof (scaled_above q Hq He) as H. rewrite Qabs_pos in H by lra.
    exact H.
Qed.

Lemma fl_monotone_pos (x y : Q) : 0 < x -> x <= y -> fl x <= fl y.
Proof.
  intros H0 Hxy.
  assert (Hx : ~ x == 0) by lra. assert (Hy : ~ y == 0) by lra.
  destruct (ilog2_spec x Hx) as [Hx1 Hx2].
  destruct (ilog2_spec y Hy) as [Hy1 Hy2].
  rewrite Qabs_pos in Hx1, Hx2, Hy1, Hy2 by lra.
  assert (He : (ilog2 x <= ilog2 y)%Z).
  { assert (ilog2 x < ilog2 y + 1)%Z by (apply two_power_lt; lra). lia. }
  destruct (Z.eq_dec (Z.max (ilog2 x) (-1022)) (Z.max (ilog2 y) (-1022)))
    as [E | NE].
  - assert (Eu : ulp x = ulp y) by (unfold ulp; now rewrite E).
    rewrite (fl_unfold x Hx), (fl_unfold y Hy), Eu.
    pose proof (ulp_pos y) as Hu.
    apply Qmult_le_compat_r; [|lra].
    rewrite <- Zle_Qle. apply rne_monotone.
    apply Qmult_le_compat_r; [exact Hxy|].
    apply Qlt_le_weak, Qinv_lt_0_compat, Hu.
  - apply Qle_trans with (2 ^ ilog2 y).
    + eapply Qle_trans; [apply fl_below_power; exact H0|].
      apply Qpower_le_compat_l; [lia | discriminate].
    + apply fl_above_power; [lra | lia].
Qed.

Lemma fl_monotone (x y : Q) : x <= y -> fl x <= fl y.
Proof.
  intros Hxy. destruct (Qlt_le_dec 0 x) as [Hx | Hx].
  - now apply fl_monotone_pos.
  - destruct (Qlt_le_dec y 0) as [Hy | Hy].
    + assert (H : fl (- y) <= fl (- x)) by (apply fl_monotone_pos; lra).
      rewrite !fl_opp in H. lra.
    + assert (H1 : 0 <= fl y) by now apply fl_nonneg.
      assert (H2 : 0 <= fl (- x)) by (apply fl_nonneg; lra).
      rewrite fl_opp in H2. lra.
Qed.

(** The result of rounding is [m * 2 ^ s] with [|m| < 2 ^ 53] and
    [s >= -1074]. *)
Lemma fl_exact_form (q : Q) :
  exists m s : Z,
    fl q == dyadic m s /\ (Z.abs m < 2 ^ 53)%Z /\ (-1074 <= s)%Z.
Proof.
  unfold dyadic. destruct (Qeq_dec q 0) as [E | Hq].
  { exists 0%Z, 0%Z. rewrite (fl_zero q E). split; [reflexivity|]. lia. }
  pose proof (ulp_pos q) as Hu.
  set (m := rne (q / ulp q)).
  set (e := Z.max (ilog2 q) (-1022)).
  assert (Hm : (Z.abs m <= 2 ^ 53)%Z).
  { pose proof (scaled_below q Hq) as Hb.
    assert (Hd : Qabs (q / ulp q) == Qabs q / ulp q).
    { unfold Qdiv. rewrite Qabs_Qmult, Qabs_Qinv, (Qabs_pos (ulp q)) by lra.
      reflexivity. }
    rewrite <- Hd in Hb. apply Qabs_Qlt_condition in Hb. destruct Hb as [Hb1 Hb2].
    assert (m <= 2 ^ 53)%Z.
    { unfold m. rewrite <- (rne_integer (2 ^ 53)). apply rne_monotone. lra. }
    assert (- 2 ^ 53 <= m)%Z.
    { unfold m. rewrite <- (rne_integer (- 2 ^ 53)). apply rne_monotone.
      rewrite inject_Z_opp. lra. }
    lia. }
  destruct (Z.eq_dec (Z.abs m) (2 ^ 53)%Z) as [Htop | Hlow].
  - assert (Em : m = (2 * (m / 2))%Z /\ (Z.abs (m / 2) < 2 ^ 53)%Z).
    { assert (m = 2 ^ 53 \/ m = - 2 ^ 53)%Z as [-> | ->] by lia;
        split; reflexivity. }
    destruct Em as [Em Hhalf].
    exists (m / 2)%Z, (e - 51)%Z. rewrite (fl_unfold q Hq). fold m.
    split; [|split; [exact Hhalf | unfold e; lia]].
    rewrite Em at 1. rewrite inject_Z_mult. unfold ulp. fold e.
    replace (e - 51)%Z with (1 + (e - 52))%Z by lia.
    rewrite Qpower_plus by discriminate. change (2 ^ 1) with 2.
    change (inject_Z 2) with 2. ring.
  - exists m, (e - 52)%Z. rewrite (fl_unfold q Hq). fold m.
    split; [reflexivity|]. unfold e. lia.
Qed.

Lemma fl_idempotent (q : Q) : fl (fl q) == fl q.
Proof.
  destruct (fl_exact_form q) as (m & s & E & Hm & Hs).
  rewrite (fl_proper _ _ E), E. now apply fl_dyadic.
Qed.

(** ** Numbers on one binary grid *)

Lemma dyadic_plus (a b s : Z) : dyadic a s + dyadic b s == dyadic (a + b) s.
Proof. unfold dyadic. rewrite inject_Z_plus. ring. Qed.

Lemma dyadic_opp (a s : Z) : - dyadic a s == dyadic (- a) s.
Proof. unfold dyadic. rewrite inject_Z_opp. ring. Qed.

Lemma dyadic_minus (a b s : Z) : dyadic a s - dyadic b s == dyadic (a - b) s.
Proof.
  unfold Qminus, Z.sub. now rewrite dyadic_opp, dyadic_plus.
Qed.

Lemma dyadic_scale (k a s : Z) : inject_Z k * dyadic a s == dyadic (k * a) s.
Proof. unfold dyadic. rewrite inject_Z_mult. ring. Qed.

Lemma dyadic_le (a b s : Z) : dyadic a s <= dyadic b s <-> (a <= b)%Z.
Proof.
  unfold dyadic. pose proof (two_power_pos s) as Hp.
  rewrite Zle_Qle. split; intros H.
  - apply Qmult_le_r in H; assumption.
  - apply Qmult_le_r; assumption.
Qed.

Lemma dyadic_lt (a b s : Z) : dyadic a s < dyadic b s <-> (a < b)%Z.
Proof.
  unfold dyadic. pose proof (two_power_pos s) as Hp.
  rewrite Zlt_Qlt. split; intros H.
  - apply Qmult_lt_r in H; assumption.
  - apply Qmult_lt_r; assumption.
Qed.

Lemma dyadic_integer (z : Z) : dyadic z 0 == inject_Z z.
Proof. unfold dyadic. change (2 ^ 0) with 1. ring. Qed.

(** A sum or difference on the grid that stays below [2 ^ 53] steps is
    computed without rounding. *)
Lemma fl_grid (q : Q) (m s : Z) :
  q == dyadic m s -> (Z.abs m < 2 ^ 53)%Z -> (-1074 <= s)%Z ->
  fl q == dyadic m s.
Proof. intros E Hm Hs. rewrite (fl_proper _ _ E). now apply fl_dyadic. Qed.

#[local] Instance double_proper : Proper (Qeq ==> iff) double.
Proof.
  intros p q E. unfold double. rewrite (fl_proper _ _ E), E. reflexivity.
Qed.

Lemma double_dyadic (m s : Z) :
  (Z.abs m < 2 ^ 53)%Z -> (-1074 <= s <= 971)%Z -> double (dyadic m s).
Proof.
  intros Hm Hs. split; [apply fl_dyadic; lia|].
  pose proof (two_power_pos s) as Hp.
  unfold dyadic. rewrite Qabs_Qmult, (Qabs_pos (2 ^ s)) by lra.
  change (Qabs (inject_Z m)) with (inject_Z (Z.abs m)).
  apply Qlt_le_trans with (inject_Z (2 ^ 53) * 2 ^ s).
  - apply Qmult_lt_compat_r; [exact Hp|]. now rewrite <- Zlt_Qlt.
  - rewrite <- two_power_integer by lia.
    rewrite <- Qpower_plus by discriminate.
    apply Qpower_le_compat_l; [lia | discriminate].
Qed.

Lemma double_integer (z : Z) : (Z.abs z < 2 ^ 53)%Z -> double (inject_Z z).
Proof.
  intros Hz. rewrite <- dyadic_integer. apply double_dyadic; lia.
Qed.

Lemma double_minus_zero (q : Q) : double q -> double (q - 0).
Proof.
  intros Hq. assert (E : q - 0 == q) by ring. now rewrite E.
Qed.

(** ** Indices computed from a draw *)

Lemma index_of_inject_Z (z : Z) :
  (0 <= z)%Z -> index_of (inject_Z z) = Some (Z.to_nat z).
Proof.
  intros Hz. unfold index_of, Qeqb.
  rewrite Qfloor_Z.
  assert (E1 : Qeq_bool (inject_Z z) (inject_Z z) = true)
    by (apply Qeq_bool_iff; reflexivity).
  assert (E2 : Qle_bool 0 (inject_Z z) = true).
  { apply Qle_bool_iff. change 0 with (inject_Z 0). rewrite <- Zle_Qle. exact Hz. }
  now rewrite E1, E2.
Qed.

Lemma index_of_nat (i : nat) : index_of (inject_Z (Z.of_nat i)) = Some i.
Proof.
  rewrite index_of_inject_Z by lia. now rewrite Nat2Z.id.
Qed.

(** [Math.floor(u * m)] for a draw [u] and a positive integer [m] is one
    of [0, ..., m - 1]. *)
Lemma floor_scaled_draw (u : Q) (m : Z) :
  0 <= u < 1 -> (0 < m)%Z ->
  (0 <= Qfloor (u * inject_Z m) < m)%Z.
Proof.
  intros [Hu0 Hu1] Hm.
  assert (Hm' : 0 < inject_Z m).
  { change 0 with (inject_Z 0). rewrite <- Zlt_Qlt. exact Hm. }
  split.
  - change 0%Z with (Qfloor 0). apply Qfloor_resp_le.
    apply Qmult_le_0_compat; lra.
  - rewrite Zlt_Qlt.
    apply Qle_lt_trans with (u * inject_Z m); [apply Qfloor_le|].
    assert (u * inject_Z m < 1 * inject_Z m)
      by (apply Qmult_lt_compat_r; lra).
    lra.
Qed.

(** ** Reads and writes inside the array *)

Section ArrayFacts.
Context `{Undefined V}.
Implicit Types (arr : list V) (i j : nat) (x y : V).

Lemma elem_get_nat arr i x :
  arr !! i = Some x -> elem_get arr (inject_Z (Z.of_nat i)) = x.
Proof.
  intros Hi. unfold elem_get. rewrite index_of_nat. now rewrite Hi.
Qed.

Lemma elem_set_nat arr i x :
  (i < length arr)%nat ->
  elem_set arr (inject_Z (Z.of_nat i)) x = <[i:=x]> arr.
Proof.
  intros Hi. unfold elem_set. rewrite index_of_nat.
  destruct (decide (i < length arr)%nat); [reflexivity | contradiction].
Qed.

Lemma insert_head_perm arr j x y :
  arr !! j = Some y -> Permutation (y :: <[j:=x]> arr) (x :: arr).
Proof.
  revert j. induction arr as [|b arr IH]; intros [|j] Hj; simpl in *;
    try discriminate.
  - injection Hj as ->. apply perm_swap.
  - etransitivity; [apply perm_swap|].
    etransitivity; [apply perm_skip, IH, Hj|]. apply perm_swap.
Qed.

(** Exchanging the contents of two positions permutes the array. *)
Lemma exchange_perm arr i j x y :
  arr !! i = Some x -> arr !! j = Some y ->
  Permutation (<[j:=x]> (<[i:=y]> arr)) arr.
Proof.
  revert i j. induction arr as [|b arr IH]; intros [|i] [|j] Hi Hj;
    simpl in *; try discriminate.
  - injection Hi as ->. injection Hj as ->. reflexivity.
  - injection Hi as ->. now apply insert_head_perm.
  - injection Hj as ->. now apply insert_head_perm.
  - apply perm_skip. now apply IH.
Qed.
End ArrayFacts.

(** ** shuffle_array *)

Section Shuffle.
Context `{Undefined V}.
Implicit Types (arr : list V) (g : source) (i n : nat).

(** One pass of the Fisher-Yates loop body exchanges position [i] with
    a position [j <= i], and takes one draw. *)
Lemma shuffle_step_perm i arr g n :
  0 <= g n < 1 -> (i < length arr)%nat ->
  exists arr', UtilsJs.shuffle_step i arr g n = (arr', S n)
               /\ Permutation arr' arr.
Proof.
  intros Hu Hi. unfold UtilsJs.shuffle_step, bind, Math_random, ret.
  eexists. split; [reflexivity|].
  set (z := Qfloor (g n * (inject_Z (Z.of_nat i) + 1))).
  assert (Hz : (0 <= z < Z.of_nat i + 1)%Z).
  { unfold z.
    assert (E : inject_Z (Z.of_nat i) + 1 == inject_Z (Z.of_nat i + 1))
      by (rewrite inject_Z_plus; reflexivity).
    rewrite E. apply floor_scaled_draw; [exact Hu | lia]. }
  unfold Math_floor. fold z.
  rewrite <- (Z2Nat.id z) by lia.
  set (j := Z.to_nat z).
  assert (Hj : (j < length arr)%nat) by (unfold j; lia).
  destruct (lookup_lt_is_Some_2 arr i Hi) as [x Hx].
  destruct (lookup_lt_is_Some_2 arr j Hj) as [y Hy].
  rewrite (elem_get_nat arr i x Hx), (elem_get_nat arr j y Hy).
  rewrite (elem_set_nat arr i y Hi).
  rewrite elem_set_nat by (rewrite length_insert; exact Hj).
  now apply exchange_perm.
Qed.

Lemma shuffle_loop_perm g :
  unit_draws g ->
  forall i arr n,
    (i < length arr)%nat \/ i = O ->
    Permutation (value_of (UtilsJs.shuffle_loop i arr) g n) arr.
Proof.
  intros Hg. induction i as [|i IH]; intros arr n Hi.
  - reflexivity.
  - destruct Hi as [Hi|Hi]; [|discriminate].
    destruct (shuffle_step_perm (S i) arr g n (Hg n) Hi) as (arr' & E & P).
    unfold value_of. simpl. unfold bind at 1. rewrite E.
    etransitivity; [|exact P].
    apply IH. left. rewrite (Permutation_length P). lia.
Qed.

(** The sort-by-random-key revision builds a new array and never
    writes the one it was given. *)
Lemma shuffle_array_unchanged arr g n :
  value_of (Part0.shuffle_array arr) g n = arr.
Proof.
  unfold value_of, Part0.shuffle_array, bind, ret.
  now destruct (Part0.shuffled arr g n).
Qed.
End Shuffle.

(** C2.  After [shuffle_array] the array holds a permutation of what it
    held before, whatever the draws of [Math.random()]: by exchanges of
    two positions in src/utils.js (Fisher-Yates), and in part_000 because
    the array is left as it was. *)
Theorem shuffle_array_permutation `{Undefined V} (arr : list V)
    (g : source) (n : nat) :
  unit_draws g ->
  Permutation (value_of (UtilsJs.shuffle_array arr) g n) arr
  /\ Permutation (value_of (Part0.shuffle_array arr) g n) arr.
Proof.
  intros Hg. split.
  - apply shuffle_loop_perm; [exact Hg|].
    destruct arr; simpl; [right; reflexivity | left; lia].
  - now rewrite shuffle_array_unchanged.
Qed.

Lemma shuffle_array_permutation_witness :
  Permutation
    (value_of (UtilsJs.shuffle_array [Some 1%Z; Some 2%Z; Some 3%Z]) half_draws 0)
    [Some 1%Z; Some 2%Z; Some 3%Z]
  /\ Permutation
    (value_of (Part0.shuffle_array [Some 1%Z; Some 2%Z; Some 3%Z]) half_draws 0)
    [Some 1%Z; Some 2%Z; Some 3%Z].
Proof.
  apply (shuffle_array_permutation [Some 1%Z; Some 2%Z; Some 3%Z] half_draws 0).
  intros n. unfold half_draws. split; [discriminate | reflexivity].
Defined.

Example shuffle_array_run :
  value_of (UtilsJs.shuffle_array [Some 1%Z; Some 2%Z; Some 3%Z]) half_draws 0
  = [Some 1%Z; Some 3%Z; Some 2%Z].
Proof. reflexivity. Qed.

(** ** random_from_array *)

Lemma Qdiv_le_iff (a u l : Q) : 0 < l -> (a / l <= u <-> a <= u * l).
Proof.
  intros Hl. split; intros Hle.
  - assert (Ea : a == a / l * l) by (field; lra). rewrite Ea.
    apply Qmult_le_compat_r; lra.
  - apply Qle_shift_div_r; assumption.
Qed.

Lemma Qlt_div_iff (a u l : Q) : 0 < l -> (u < a / l <-> u * l < a).
Proof.
  intros Hl. split; intros Hlt.
  - assert (Ea : a == a / l * l) by (field; lra). rewrite Ea.
    apply Qmult_lt_compat_r; lra.
  - apply Qlt_shift_div_l; assumption.
Qed.

#[local] Instance index_of_proper : Proper (Qeq ==> eq) index_of.
Proof.
  intros k k' E. unfold index_of, Qeqb.
  assert (F : Qfloor k = Qfloor k') by (apply Qfloor_comp; exact E).
  rewrite <- F.
  assert (E1 : Qeq_bool k (inject_Z (Qfloor k))
               = Qeq_bool k' (inject_Z (Qfloor k))).
  { apply eq_true_iff_eq. rewrite !Qeq_bool_iff.
    split; intros E'; [transitivity k; [symmetry|] | transitivity k'];
      assumption. }
  assert (E2 : Qle_bool 0 k = Qle_bool 0 k').
  { apply eq_true_iff_eq. rewrite !Qle_bool_iff.
    split; intros E'; [rewrite <- E | rewrite E]; exact E'. }
  now rewrite E1, E2.
Qed.

#[local] Instance elem_get_proper `{Undefined V} (arr : list V) :
  Proper (Qeq ==> eq) (elem_get arr).
Proof. intros k k' E. unfold elem_get. now rewrite E. Qed.

Lemma len_pos {V : Type} (a : list V) : a <> [] -> 0 < len a.
Proof.
  intros Ha. unfold len. change 0 with (inject_Z 0). rewrite <- Zlt_Qlt.
  destruct a; [contradiction | simpl; lia].
Qed.

(** In part_000 every position of a non-empty array is chosen by the
    draws of an interval of width [1 / a.length]: position [k] exactly by
    the draws of [[k / a.length, (k + 1) / a.length)]. *)
Theorem random_from_array_uniform `{Undefined V} (a : list V)
    (g : source) (n : nat) :
  a <> [] -> 0 <= g n < 1 ->
  exists k : nat,
    (k < length a)%nat
    /\ a !! k = Some (value_of (Part0.random_from_array a) g n)
    /\ forall k' : nat,
         k' = k <->
         inject_Z (Z.of_nat k') / len a <= g n
           < (inject_Z (Z.of_nat k') + 1) / len a.
Proof.
  intros Ha Hu.
  pose proof (len_pos a Ha) as Hl.
  assert (Hlen : (0 < Z.of_nat (length a))%Z) by (destruct a; simpl; [contradiction|lia]).
  pose proof (floor_scaled_draw (g n) _ Hu Hlen) as Hz.
  fold (len a) in Hz.
  exists (Z.to_nat (Qfloor (g n * len a))). split; [lia|]. split.
  - cbv [value_of Part0.random_from_array bind Math_random ret Math_floor fst].
    set (z := Qfloor (g n * len a)) in *.
    replace (inject_Z z) with (inject_Z (Z.of_nat (Z.to_nat z)))
      by (rewrite Z2Nat.id; [reflexivity | lia]).
    destruct (lookup_lt_is_Some_2 a (Z.to_nat z)) as [x Hx]; [lia|].
    rewrite Hx. f_equal. symmetry. now apply elem_get_nat.
  - intros k'. rewrite Qdiv_le_iff, Qlt_div_iff by exact Hl.
    rewrite <- Qfloor_unique. split; intros E.
    + subst k'. rewrite Z2Nat.id by lia. reflexivity.
    + rewrite E. now rewrite Nat2Z.id.
Qed.

(** In part_000 every position [k] is reached, by the draw
    [k / a.length] for one. *)
Lemma random_from_array_reaches `{Undefined V} (a : list V) (k : nat)
    (g : source) (n : nat) :
  (k < length a)%nat -> g n = inject_Z (Z.of_nat k) / len a ->
  0 <= g n < 1
  /\ a !! k = Some (value_of (Part0.random_from_array a) g n).
Proof.
  intros Hk Hg.
  assert (Ha : a <> []) by (destruct a; [simpl in Hk; lia | discriminate]).
  pose proof (len_pos a Ha) as Hl.
  assert (Hk0 : 0 <= inject_Z (Z.of_nat k)).
  { change 0 with (inject_Z 0). rewrite <- Zle_Qle. lia. }
  assert (Hk1 : inject_Z (Z.of_nat k) < len a).
  { unfold len. rewrite <- Zlt_Qlt. lia. }
  assert (Hu : 0 <= g n < 1).
  { rewrite Hg. split.
    - apply Qle_shift_div_l; [exact Hl | lra].
    - apply Qlt_shift_div_r; [exact Hl | lra]. }
  split; [exact Hu|].
  destruct (random_from_array_uniform a g n Ha Hu) as (k0 & _ & Hget & Hiff).
  assert (E : k = k0).
  { apply Hiff. rewrite Hg. split; [apply Qle_refl|].
    apply Qlt_div_iff; [exact Hl|].
    assert (E' : inject_Z (Z.of_nat k) / len a * len a == inject_Z (Z.of_nat k))
      by (field; lra).
    rewrite E'. lra. }
  now subst k0.
Qed.

(** In src/utils.js the index is drawn below [arr.length - 1]: the last
    position of an array of two or more elements is never chosen. *)
Lemma utils_random_from_array_index `{Undefined V} (arr : list V)
    (g : source) (n : nat) :
  (2 <= length arr)%nat -> 0 <= g n < 1 ->
  exists k : nat,
    (k < length arr - 1)%nat
    /\ arr !! k = Some (value_of (UtilsJs.random_from_array arr) g n).
Proof.
  intros Hlen Hu.
  assert (Hm : (0 < Z.of_nat (length arr) - 1)%Z) by lia.
  pose proof (floor_scaled_draw (g n) _ Hu Hm) as Hz.
  set (z := Qfloor (g n * inject_Z (Z.of_nat (length arr) - 1))) in *.
  exists (Z.to_nat z). split; [lia|].
  cbv [value_of UtilsJs.random_from_array UtilsJs.random_int
       UtilsJs.random_int_between bind Math_random ret Math_floor fst].
  assert (E : inject_Z (Qfloor (g n * (len arr - 1 - 0))) + 0
              == inject_Z (Z.of_nat (Z.to_nat z))).
  { rewrite Z2Nat.id by lia. unfold z.
    assert (E' : g n * (len arr - 1 - 0)
                 == g n * inject_Z (Z.of_nat (length arr) - 1)).
    { assert (E'' : inject_Z (Z.of_nat (length arr) - 1) == len arr - 1)
        by (unfold Z.sub; rewrite inject_Z_plus; reflexivity).
      rewrite E''. ring. }
    rewrite E'. ring. }
  rewrite E.
  destruct (lookup_lt_is_Some_2 arr (Z.to_nat z)) as [x Hx]; [lia|].
  rewrite Hx. f_equal. symmetry. now apply elem_get_nat.
Qed.

(** C3, on src/utils.js.  [random_from_array] of the two-element array
    [[10, 20]] returns [10] for every draw: [20] is never chosen. *)
Theorem utils_random_from_array_never_last (g : source) (n : nat) :
  0 <= g n < 1 ->
  value_of (UtilsJs.random_from_array [Some 10%Z; Some 20%Z]) g n
  = Some 10%Z.
Proof.
  intros Hu.
  destruct (utils_random_from_array_index [Some 10%Z; Some 20%Z] g n)
    as (k & Hk & Hget); [simpl; lia | exact Hu |].
  simpl in Hk. assert (k = O) by lia. subst k.
  simpl in Hget. now injection Hget.
Qed.

Lemma utils_random_from_array_never_last_witness :
  value_of (UtilsJs.random_from_array [Some 10%Z; Some 20%Z])
    (fun _ => 99 # 100) 0
  = Some 10%Z.
Proof.
  apply (utils_random_from_array_never_last (fun _ => 99 # 100) 0).
  split; [discriminate | reflexivity].
Defined.

(** ** random *)

(** Without arguments [random] returns the draw itself. *)
Lemma random_unit_draw (g : source) (n : nat) :
  double (g n) ->
  value_of (Binary64.Part0.random None None) g n == g n
  /\ exists r : Q,
       value_of (Binary64.UtilsJs.random None None) g n = Some r /\ r == g n.
Proof.
  intros [Hd _].
  assert (E : fl (fl (g n * fl (1 - 0)) + 0) == g n).
  { assert (E1 : fl (1 - 0) == 1) by (vm_compute; reflexivity).
    assert (E2 : g n * fl (1 - 0) == g n) by (rewrite E1; ring).
    rewrite (fl_proper _ _ E2).
    assert (E3 : fl (g n) + 0 == g n) by (rewrite Hd; ring).
    rewrite (fl_proper _ _ E3). exact Hd. }
  cbv [value_of Binary64.Part0.random Binary64.UtilsJs.random
       Binary64.UtilsJs.random_between bind Math_random ret fst default
       from_option id].
  split; [exact E|]. eexists. split; [reflexivity | exact E].
Qed.

(** C8.  [random(2, 3)] returns 3, the bound that is to be excluded, when
    [Math.random()] gives [1 - 2 ^ -52]: the product [u * (3 - 2)] is
    exact and the sum [3 - 2 ^ -52] lies half-way between the doubles
    [3 - 2 ^ -51] and [3], of which 3 has the even significand.  In the
    same way [random(1e15, 1e15 + 1)] returns [1e15 + 1] when the draw is
    0.95, the doubles at that size being 1/8 apart.  So in src/utils.js as
    in part_000. *)
Theorem random_returns_upper_bound :
  (0 <= top_draws 0%nat < 1 /\ double (top_draws 0%nat)
   /\ value_of (Binary64.Part0.random (Some 2) (Some 3)) top_draws 0 == 3
   /\ exists r : Q,
        value_of (Binary64.UtilsJs.random (Some 2) (Some 3)) top_draws 0
        = Some r
        /\ r == 3)
  /\ (0 <= high_draws 0%nat < 1 /\ double (high_draws 0%nat)
      /\ value_of
           (Binary64.Part0.random (Some (inject_Z (10 ^ 15)))
              (Some (inject_Z (10 ^ 15 + 1))))
           high_draws 0
         == inject_Z (10 ^ 15 + 1)
      /\ exists r : Q,
           value_of
             (Binary64.UtilsJs.random (Some (inject_Z (10 ^ 15)))
                (Some (inject_Z (10 ^ 15 + 1))))
             high_draws 0
           = Some r
           /\ r == inject_Z (10 ^ 15 + 1)).
Proof.
  split.
  - split; [split; [vm_compute; discriminate | vm_compute; reflexivity]|].
    split; [split; vm_compute; reflexivity|].
    split; [vm_compute; reflexivity|].
    eexists. split; [reflexivity|]. vm_compute. reflexivity.
  - split; [split; [vm_compute; discriminate | vm_compute; reflexivity]|].
    split; [split; vm_compute; reflexivity|].
    split; [vm_compute; reflexivity|].
    eexists. split; [reflexivity|]. vm_compute. reflexivity.
Qed.

Example random_run :
  value_of (Binary64.Part0.random (Some 2) (Some 6)) half_draws 0 == 4.
Proof. vm_compute. reflexivity. Qed.

(** ** poly_ease_in, poly_ease_out *)

(** C1, the claim as stated fails at degree 0, where [0 ** 0] is [1]. *)
Lemma poly_ease_in_degree_zero : ~ Part0.poly_ease_in 0 0 == 0.
Proof. discriminate. Qed.

(** C1, amended.  For every degree [n >= 1] the easing curves of
    part_000:946-959 start at 0 and end at 1; and [poly_ease_in(0, 2)] is
    0, [poly_ease_in(1, 2)] is 1, [poly_ease_out(0.5, 2)] is 0.75. *)
Theorem poly_ease_boundary (n : nat) :
  (1 <= n)%nat ->
  Part0.poly_ease_in 0 n == 0
  /\ Part0.poly_ease_in 1 n == 1
  /\ Part0.poly_ease_out 0 n == 0
  /\ Part0.poly_ease_out 1 n == 1
  /\ Part0.poly_ease_in 0 2 == 0
  /\ Part0.poly_ease_in 1 2 == 1
  /\ Part0.poly_ease_out (1 # 2) 2 == 3 # 4.
Proof.
  intros Hn. unfold Part0.poly_ease_in, Part0.poly_ease_out.
  assert (Hz : Z.of_nat n <> 0%Z) by lia.
  assert (E0 : 1 - 0 == 1) by ring.
  assert (E1 : 1 - 1 == 0) by ring.
  rewrite E0, E1, !Qpower_1, !Qpower_0 by exact Hz.
  repeat split; reflexivity.
Qed.

Lemma poly_ease_boundary_witness :
  Part0.poly_ease_in 0 3 == 0
  /\ Part0.poly_ease_in 1 3 == 1
  /\ Part0.poly_ease_out 0 3 == 0
  /\ Part0.poly_ease_out 1 3 == 1
  /\ Part0.poly_ease_in 0 2 == 0
  /\ Part0.poly_ease_in 1 2 == 1
  /\ Part0.poly_ease_out (1 # 2) 2 == 3 # 4.
Proof. apply (poly_ease_boundary 3). lia. Defined.

(** The second revision of part_000 (lines 584-597) scales differently
    and misses the end points. *)
Lemma poly_ease_previous_revision :
  Part0Prev.poly_ease_in 1 2 == 2
  /\ Part0Prev.poly_ease_out 0 2 == - (1)
  /\ Part0Prev.poly_ease_out (1 # 2) 2 == 1 # 2.
Proof. repeat split; reflexivity. Qed.

(** ** xy_from_index, index_from_xy *)

Lemma Qtrunc_nonneg (q : Q) : 0 <= q -> Part0.Qtrunc q = Qfloor q.
Proof.
  intros Hq. unfold Part0.Qtrunc.
  apply Qle_bool_iff in Hq. now rewrite Hq.
Qed.

Lemma index_quotient_nonneg (i w : Z) :
  (0 < w)%Z -> (0 <= i)%Z -> 0 <= inject_Z i / inject_Z w.
Proof.
  intros Hw Hi. apply Qle_shift_div_l.
  - change 0 with (inject_Z 0). rewrite <- Zlt_Qlt. exact Hw.
  - rewrite Qmult_0_l. change 0 with (inject_Z 0). rewrite <- Zle_Qle. exact Hi.
Qed.

(** On a grid of positive integer width the coordinates are the
    remainder and the quotient of the index. *)
Lemma xy_from_index_div_mod (i w : Z) :
  (0 < w)%Z -> (0 <= i)%Z ->
  Part0.x (Part0.xy_from_index (inject_Z i) (inject_Z w)) == inject_Z (i mod w)
  /\ Part0.y (Part0.xy_from_index (inject_Z i) (inject_Z w)) == inject_Z (i / w).
Proof.
  intros Hw Hi. unfold Part0.xy_from_index, Part0.remainder, Math_floor.
  cbn [Part0.x Part0.y].
  rewrite Qtrunc_nonneg by now apply index_quotient_nonneg.
  rewrite <- Zdiv_Qdiv. split; [|reflexivity].
  rewrite <- inject_Z_mult. unfold Qminus. rewrite <- inject_Z_opp, <- inject_Z_plus.
  rewrite Z.mod_eq by lia. reflexivity.
Qed.

(** C6.  For a positive integer width [w] and an integer index [i] with
    [0 <= i < w * h], [index_from_xy] of the coordinates that
    [xy_from_index] gives is [i] again; so it is for width 12 and every
    [i] in [[0, 48)]. *)
Theorem index_xy_round_trip (w h i : Z) :
  (0 < w)%Z -> (0 <= i < w * h)%Z ->
  (let p := Part0.xy_from_index (inject_Z i) (inject_Z w) in
   Part0.index_from_xy (Part0.x p) (Part0.y p) (inject_Z w) == inject_Z i)
  /\ forall i' : Z, (0 <= i' < 48)%Z ->
       let p := Part0.xy_from_index (inject_Z i') 12 in
       Part0.index_from_xy (Part0.x p) (Part0.y p) 12 == inject_Z i'.
Proof.
  assert (G : forall w i : Z, (0 < w)%Z -> (0 <= i)%Z ->
            let p := Part0.xy_from_index (inject_Z i) (inject_Z w) in
            Part0.index_from_xy (Part0.x p) (Part0.y p) (inject_Z w)
            == inject_Z i).
  { clear. intros w i Hw Hi.
    unfold Part0.xy_from_index, Part0.index_from_xy, Part0.remainder,
      Math_floor. cbn [Part0.x Part0.y].
    rewrite Qtrunc_nonneg by now apply index_quotient_nonneg. ring. }
  intros Hw Hi. split.
  - apply G; lia.
  - intros i' Hi'. apply (G 12%Z i'); lia.
Qed.

Lemma index_xy_round_trip_witness :
  (let p := Part0.xy_from_index (inject_Z 25) (inject_Z 10) in
   Part0.index_from_xy (Part0.x p) (Part0.y p) (inject_Z 10) == inject_Z 25)
  /\ forall i' : Z, (0 <= i' < 48)%Z ->
       let p := Part0.xy_from_index (inject_Z i') 12 in
       Part0.index_from_xy (Part0.x p) (Part0.y p) 12 == inject_Z i'.
Proof. apply (index_xy_round_trip 10 3 25); lia. Defined.

Example xy_from_index_run :
  Part0.xy_from_index 25 10 = {| Part0.x := 5; Part0.y := 2 |}
  /\ Part0.index_from_xy 7 4 12 = 55.
Proof. split; reflexivity. Qed.

(** ** wrap *)

(** [wrap_fuel] is at least one more than the distance to [min_val]
    counted in widths. *)
Lemma wrap_fuel_bound (value min_val max_val : Q) (fuel : nat) :
  min_val < max_val ->
  (wrap_fuel value min_val max_val <= S fuel)%nat ->
  Qabs (value - min_val) <= inject_Z (Z.of_nat fuel) * (max_val - min_val).
Proof.
  unfold wrap_fuel. intros Hint Hf.
  set (q := Qabs (value - min_val) / (max_val - min_val)) in *.
  assert (Hq : q <= inject_Z (Z.of_nat fuel)).
  { apply Qle_trans with (inject_Z (Qceiling q)); [apply Qle_ceiling|].
    rewrite <- Zle_Qle. lia. }
  unfold q in Hq. apply Qdiv_le_iff in Hq; [exact Hq | lra].
Qed.

Lemma dyadic_abs (m s : Z) : Qabs (dyadic m s) == dyadic (Z.abs m) s.
Proof.
  unfold dyadic. pose proof (two_power_pos s) as Hp.
  rewrite Qabs_Qmult, (Qabs_pos (2 ^ s)) by lra. reflexivity.
Qed.

Lemma wrap_fuel_grid (z a b s : Z) (fuel : nat) :
  (a < b)%Z ->
  (wrap_fuel (dyadic z s) (dyadic a s) (dyadic b s) <= S fuel)%nat ->
  (Z.abs (z - a) <= Z.of_nat fuel * (b - a))%Z.
Proof.
  intros Hab Hf. apply wrap_fuel_bound in Hf; [|now apply dyadic_lt].
  rewrite !dyadic_minus, dyadic_scale, dyadic_abs in Hf.
  now apply dyadic_le in Hf.
Qed.

Section WrapGrid.
Variables a b s : Z.
Hypothesis interval : (a < b)%Z.
Hypothesis small_min : (Z.abs a < 2 ^ 52)%Z.
Hypothesis small_max : (Z.abs b < 2 ^ 52)%Z.
Hypothesis grid : (-1074 <= s)%Z.

Lemma wrap_width : fl (dyadic b s - dyadic a s) == dyadic (b - a) s.
Proof. apply fl_grid; [apply dyadic_minus | lia | exact grid]. Qed.

(** Above [b], the subtraction of the first loop is exact. *)
Lemma wrap_step_down (v : Q) (z : Z) :
  v == dyadic z s -> (Z.abs z < 2 ^ 52)%Z -> (b < z)%Z ->
  fl (v - fl (dyadic b s - dyadic a s)) == dyadic (z - (b - a)) s.
Proof.
  intros Hv Hz Hbz. apply fl_grid; [|lia | exact grid].
  rewrite Hv, wrap_width. apply dyadic_minus.
Qed.

(** Below [a], the addition of the second loop is exact. *)
Lemma wrap_step_up (v : Q) (z : Z) :
  v == dyadic z s -> (Z.abs z < 2 ^ 52)%Z -> (z < a)%Z ->
  fl (v + fl (dyadic b s - dyadic a s)) == dyadic (z + (b - a)) s.
Proof.
  intros Hv Hz Hza. apply fl_grid; [|lia | exact grid].
  rewrite Hv, wrap_width. apply dyadic_plus.
Qed.

(** The first loop leaves a grid point at most [b], above [a] if it
    moved at all, having subtracted the width [k] times. *)
Lemma wrap_above_grid (fuel : nat) :
  forall (v : Q) (z : Z),
    v == dyadic z s -> (Z.abs z < 2 ^ 52)%Z ->
    (z <= b + Z.of_nat fuel * (b - a))%Z ->
    exists (r : Q) (z' : Z) (k : nat),
      Binary64.wrap_above (S fuel) v (dyadic a s) (dyadic b s) = Some r
      /\ r == dyadic z' s
      /\ (z' = z - Z.of_nat k * (b - a))%Z
      /\ (z' <= b)%Z
      /\ (b < z -> a < z')%Z
      /\ (z <= b -> z' = z)%Z.
Proof.
  induction fuel as [|fuel IH]; intros v z Hv Hz Hb.
  - cbn [Binary64.wrap_above].
    destruct (Qltb (dyadic b s) v) eqn:E.
    + apply Qltb_lt in E. rewrite Hv in E. apply dyadic_lt in E. lia.
    + exists v, z, O. split; [reflexivity|]. split; [exact Hv|]. lia.
  - change (Binary64.wrap_above (S (S fuel)) v (dyadic a s) (dyadic b s))
      with (if Qltb (dyadic b s) v
            then Binary64.wrap_above (S fuel)
                   (fl (v - fl (dyadic b s - dyadic a s)))
                   (dyadic a s) (dyadic b s)
            else Some v).
    destruct (Qltb (dyadic b s) v) eqn:E.
    + apply Qltb_lt in E. rewrite Hv in E. apply dyadic_lt in E.
      destruct (IH _ (z - (b - a))%Z (wrap_step_down v z Hv Hz E))
        as (r & z' & k & Hr & Hrz & Hk & Hle & Hgt & Hid); [lia | lia |].
      exists r, z', (S k). split; [exact Hr|]. split; [exact Hrz|]. lia.
    + assert (Hle : (z <= b)%Z).
      { apply Z.le_ngt. intros Hlt. apply dyadic_lt with (s := s) in Hlt.
        rewrite <- Hv in Hlt. apply Qltb_lt in Hlt. congruence. }
      exists v, z, O. split; [reflexivity|]. split; [exact Hv|]. lia.
Qed.

(** The second loop leaves a grid point at least [a], below [b] if it
    moved at all, having added the width [k] times. *)
Lemma wrap_below_grid (fuel : nat) :
  forall (v : Q) (z : Z),
    v == dyadic z s -> (Z.abs z < 2 ^ 52)%Z ->
    (a - Z.of_nat fuel * (b - a) <= z)%Z ->
    exists (r : Q) (z' : Z) (k : nat),
      Binary64.wrap_below (S fuel) v (dyadic a s) (dyadic b s) = Some r
      /\ r == dyadic z' s
      /\ (z' = z + Z.of_nat k * (b - a))%Z
      /\ (a <= z')%Z
      /\ (z < a -> z' < b)%Z
      /\ (a <= z -> z' = z)%Z.
Proof.
  induction fuel as [|fuel IH]; intros v z Hv Hz Hb.
  - cbn [Binary64.wrap_below].
    destruct (Qltb v (dyadic a s)) eqn:E.
    + apply Qltb_lt in E. rewrite Hv in E. apply dyadic_lt in E. lia.
    + exists v, z, O. split; [reflexivity|]. split; [exact Hv|]. lia.
  - change (Binary64.wrap_below (S (S fuel)) v (dyadic a s) (dyadic b s))
      with (if Qltb v (dyadic a s)
            then Binary64.wrap_below (S fuel)
                   (fl (v + fl (dyadic b s - dyadic a s)))
                   (dyadic a s) (dyadic b s)
            else Some v).
    destruct (Qltb v (dyadic a s)) eqn:E.
    + apply Qltb_lt in E. rewrite Hv in E. apply dyadic_lt in E.
      destruct (IH _ (z + (b - a))%Z (wrap_step_up v z Hv Hz E))
        as (r & z' & k & Hr & Hrz & Hk & Hle & Hlt & Hid); [lia | lia |].
      exists r, z', (S k). split; [exact Hr|]. split; [exact Hrz|]. lia.
    + assert (Hle : (a <= z)%Z).
      { apply Z.le_ngt. intros Hlt. apply dyadic_lt with (s := s) in Hlt.
        rewrite <- Hv in Hlt. apply Qltb_lt in Hlt. congruence. }
      exists v, z, O. split; [reflexivity|]. split; [exact Hv|]. lia.
Qed.

Lemma wrap_grid (z : Z) (fuel : nat) :
  (Z.abs z < 2 ^ 52)%Z ->
  (wrap_fuel (dyadic z s) (dyadic a s) (dyadic b s) <= fuel)%nat ->
  exists (r : Q) (z' k : Z),
    Binary64.wrap fuel (dyadic z s) (dyadic a s) (dyadic b s) = Some r
    /\ r == dyadic z' s
    /\ (a <= z' <= b)%Z
    /\ (z' = z + k * (b - a))%Z.
Proof.
  intros Hz Hf. destruct fuel as [|fuel]; [unfold wrap_fuel in Hf; lia|].
  pose proof (wrap_fuel_grid z a b s fuel interval Hf) as Hb.
  destruct (wrap_above_grid fuel (dyadic z s) z)
    as (r1 & z1 & k1 & Hr1 & Hrz1 & Hk1 & Hle1 & Hgt1 & Hid1);
    [reflexivity | exact Hz | lia |].
  destruct (wrap_below_grid fuel r1 z1)
    as (r2 & z2 & k2 & Hr2 & Hrz2 & Hk2 & Hle2 & Hlt2 & Hid2);
    [exact Hrz1 | lia | nia |].
  exists r2, z2, (Z.of_nat k2 - Z.of_nat k1)%Z.
  unfold Binary64.wrap. rewrite Hr1. split; [exact Hr2|].
  split; [exact Hrz2|]. split; [lia | nia].
Qed.
End WrapGrid.

(** C5, the claim as stated fails for doubles.  [wrap(0.7, 0, 0.1)]
    returns [2 ^ -55], which no integer multiple of the width 0.1
    separates from 0.7: the seven subtractions are rounded.  And
    [wrap(2 ** 60, 0, 1)] does not return: [2 ** 60 - 1] rounds back to
    [2 ** 60], so the first loop never ends. *)
Lemma wrap_rounds_and_stalls :
  (exists r : Q,
     Binary64.wrap 8 (fl (7 # 10)) 0 (fl (1 # 10)) = Some r
     /\ ~ exists k : Z, r == fl (7 # 10) + inject_Z k * (fl (1 # 10) - 0))
  /\ forall fuel : nat, Binary64.wrap fuel (inject_Z (2 ^ 60)) 0 1 = None.
Proof.
  split.
  - eexists. split; [vm_compute; reflexivity|].
    match goal with |- ~ (exists k : Z, ?r == _) => set (r0 := r) end.
    intros [k Hk].
    assert (Hw : 0 < fl (1 # 10) - 0) by (vm_compute; reflexivity).
    set (w := fl (1 # 10) - 0) in *.
    set (d := r0 - fl (7 # 10)).
    assert (Hd : inject_Z k == d / w).
    { unfold d. rewrite Hk. field. lra. }
    assert (Hfl : Qfloor (d / w) = (-7)%Z) by (vm_compute; reflexivity).
    rewrite <- (Qfloor_comp _ _ Hd), Qfloor_Z in Hfl. subst k.
    revert Hd. vm_compute. discriminate.
  - intros fuel. unfold Binary64.wrap.
    assert (Hstall : forall v : Q,
              v == inject_Z (2 ^ 60) -> Binary64.wrap_above fuel v 0 1 = None).
    { induction fuel as [|fuel IH]; intros v Hv; [reflexivity|].
      cbn [Binary64.wrap_above].
      assert (E : Qltb 1 v = true) by (apply Qltb_lt; rewrite Hv; reflexivity).
      rewrite E. apply IH.
      assert (Ev : v - fl (1 - 0) == inject_Z (2 ^ 60) - 1).
      { rewrite Hv. assert (E1 : fl (1 - 0) == 1) by (vm_compute; reflexivity).
        rewrite E1. reflexivity. }
      rewrite (fl_proper _ _ Ev). vm_compute. reflexivity. }
    now rewrite (Hstall _ (Qeq_refl _)).
Qed.

(** C5.  For a value and bounds on one binary grid, [k * 2 ^ s] with
    integers [k] below [2 ^ 52] in absolute value (the integers below
    [2 ^ 52] for [s = 0], halves and quarters for [s = -1] and [s = -2]),
    and [min_val < max_val], [wrap] returns as soon as each loop may test
    its condition [wrap_fuel] times, a number that grows with
    [|value - min_val| / (max_val - min_val)]; the result lies in
    [[min_val, max_val]] and differs from [value] by an integer multiple
    of [max_val - min_val].  [wrap(65, 0, 60)] is 5 and [wrap(-5, 0, 60)]
    is 55. *)
Theorem wrap_into_interval (value min_val max_val s : Z) (fuel : nat) :
  (-1074 <= s <= 971)%Z ->
  (Z.abs value < 2 ^ 52)%Z ->
  (Z.abs min_val < 2 ^ 52)%Z ->
  (Z.abs max_val < 2 ^ 52)%Z ->
  (min_val < max_val)%Z ->
  (wrap_fuel (dyadic value s) (dyadic min_val s) (dyadic max_val s)
   <= fuel)%nat ->
  (exists (r : Q) (k : Z),
     Binary64.wrap fuel (dyadic value s) (dyadic min_val s)
       (dyadic max_val s)
     = Some r
     /\ dyadic min_val s <= r <= dyadic max_val s
     /\ r == dyadic value s
             + inject_Z k * (dyadic max_val s - dyadic min_val s))
  /\ (exists r : Q,
        Binary64.wrap (wrap_fuel 65 0 60) 65 0 60 = Some r /\ r == 5)
  /\ (exists r : Q,
        Binary64.wrap (wrap_fuel (-5) 0 60) (-5) 0 60 = Some r /\ r == 55).
Proof.
  intros Hs Hv Hmin Hmax Hint Hf.
  split; [|split; eexists; (split; [vm_compute; reflexivity | reflexivity])].
  destruct (wrap_grid min_val max_val s Hint Hmin Hmax (proj1 Hs) value fuel
              Hv Hf)
    as (r & z' & k & Hr & Hrz & Hin & Hk).
  exists r, k. split; [exact Hr|]. rewrite Hrz. split.
  - split; apply dyadic_le; lia.
  - rewrite dyadic_minus, dyadic_scale, dyadic_plus, Hk. reflexivity.
Qed.

Lemma wrap_into_interval_witness :
  (exists (r : Q) (k : Z),
     Binary64.wrap 5 (dyadic 7 (-1)) (dyadic (-2) (-1)) (dyadic 2 (-1))
     = Some r
     /\ dyadic (-2) (-1) <= r <= dyadic 2 (-1)
     /\ r == dyadic 7 (-1)
             + inject_Z k * (dyadic 2 (-1) - dyadic (-2) (-1)))
  /\ (exists r : Q,
        Binary64.wrap (wrap_fuel 65 0 60) 65 0 60 = Some r /\ r == 5)
  /\ (exists r : Q,
        Binary64.wrap (wrap_fuel (-5) 0 60) (-5) 0 60 = Some r /\ r == 55).
Proof.
  apply (wrap_into_interval 7 (-2) 2 (-1) 5).
  - lia.
  - reflexivity.
  - reflexivity.
  - reflexivity.
  - reflexivity.
  - vm_compute. lia.
Defined.

(** [wrap(3.5, -1, 1)] is -0.5. *)
Example wrap_run :
  exists r : Q,
    Binary64.wrap 5 (dyadic 7 (-1)) (dyadic (-2) (-1)) (dyadic 2 (-1)) = Some r
    /\ r == - (1 # 2).
Proof. eexists. split; [vm_compute; reflexivity | reflexivity]. Qed.

(** ** dec_to_hex, hex_to_dec *)

Module HexFacts.

Local Open Scope N_scope.

Lemma digit_value_upper_hex (d : N) :
  d < 16 -> digit_value (upper_hex d) = Some d.
Proof. intros H. digit_cases d; reflexivity. Qed.

Lemma upper_hex_not_space (d : N) : d < 16 -> is_space (upper_hex d) = false.
Proof. intros H. digit_cases d; reflexivity. Qed.

Lemma digits_prefix_digits (l : list N) :
  Forall (fun d => d < 16) l ->
  forall (a : N) (seen : bool),
    digits_prefix (map upper_hex l) a seen
    = if seen || negb (bool_decide (l = []))
      then Some (from_digits l a) else None.
Proof.
  induction 1 as [|d l Hd Hl IH]; intros a seen.
  - simpl. now destruct seen.
  - cbn [map digits_prefix]. rewrite (digit_value_upper_hex d Hd).
    rewrite IH. cbn [orb]. now rewrite orb_true_r.
Qed.

Lemma digits16_app (fuel : nat) :
  forall (n : N) (acc : list N),
    digits16 fuel n acc = digits16 fuel n [] ++ acc.
Proof.
  induction fuel as [|fuel IH]; intros n acc; [reflexivity|].
  cbn [digits16]. destruct (n / 16 =? 0); [reflexivity|].
  rewrite (IH _ (_ :: acc)), (IH _ [_]). now rewrite <- app_assoc.
Qed.

Lemma digits16_small (fuel : nat) :
  forall (n : N) (acc : list N),
    Forall (fun d => d < 16) acc ->
    Forall (fun d => d < 16) (digits16 fuel n acc).
Proof.
  induction fuel as [|fuel IH]; intros n acc Hacc; [exact Hacc|].
  assert (Hd : n mod 16 < 16) by (apply N.mod_lt; discriminate).
  cbn [digits16]. destruct (n / 16 =? 0).
  - now constructor.
  - apply IH. now constructor.
Qed.

Lemma digits16_nonempty (fuel : nat) (n : N) : digits16 (S fuel) n [] <> [].
Proof.
  cbn [digits16]. destruct (n / 16 =? 0); [discriminate|].
  rewrite digits16_app. intros E. apply app_eq_nil in E. now destruct E.
Qed.

(** With fuel for every digit, the digits write [n]. *)
Lemma digits16_value (fuel : nat) :
  forall n : N,
    n < 16 ^ N.of_nat fuel -> from_digits (digits16 fuel n []) 0 = n.
Proof.
  induction fuel as [|fuel IH]; intros n Hn.
  - simpl in *. lia.
  - cbn [digits16]. destruct (n / 16 =? 0) eqn:E.
    + apply N.eqb_eq in E. unfold from_digits. simpl.
      pose proof (N.div_mod n 16). lia.
    + rewrite digits16_app. unfold from_digits. rewrite fold_left_app.
      fold (from_digits (digits16 fuel (n / 16) []) 0).
      rewrite IH.
      * simpl. pose proof (N.div_mod n 16). lia.
      * apply N.Div0.div_lt_upper_bound.
        rewrite Nat2N.inj_succ, N.pow_succ_r' in Hn. exact Hn.
Qed.

Lemma log2_fuel (n : N) : n < 16 ^ N.of_nat (S (N.to_nat (N.log2 n))).
Proof.
  rewrite Nat2N.inj_succ, N2Nat.id.
  apply N.lt_le_trans with (2 ^ N.succ (N.log2 n)).
  - destruct n as [|p]; [reflexivity|]. apply N.log2_spec. reflexivity.
  - apply N.pow_le_mono_l. lia.
Qed.

Lemma from_digits_zeros (k : nat) (l : list N) :
  from_digits (replicate k 0 ++ l) 0 = from_digits l 0.
Proof.
  induction k as [|k IH]; [reflexivity|]. simpl. exact IH.
Qed.

(** The string that [dec_to_hex] builds for the integer [n >= 0]:
    zeros up to the padding, then the digits of [n], in upper case. *)
Lemma padded_upper (n : N) (padding : nat) :
  exists l : list N,
    toUpperCase (padStart (Z_toString16 (Z.of_N n)) padding "0"%char)
    = map upper_hex l
    /\ l <> [] /\ Forall (fun d => d < 16) l /\ from_digits l 0 = n.
Proof.
  unfold Z_toString16. rewrite Zabs2N.id.
  assert (E : (Z.of_N n <? 0)%Z = false) by (apply Z.ltb_ge; lia).
  rewrite E. clear E.
  set (ds := digits16 (S (N.to_nat (N.log2 n))) n []).
  unfold padStart, toUpperCase. rewrite length_map.
  exists (replicate (padding - length ds) 0 ++ ds).
  split; [|split; [|split]].
  - rewrite !map_app, map_map. f_equal.
    induction (padding - length ds)%nat as [|k IH]; [reflexivity|].
    simpl. now rewrite IH.
  - intros E. apply app_eq_nil in E. destruct E as [_ E].
    now apply digits16_nonempty in E.
  - apply Forall_app. split.
    + apply Forall_replicate. reflexivity.
    + apply digits16_small. constructor.
  - rewrite from_digits_zeros. apply digits16_value, log2_fuel.
Qed.

Lemma strip_sign_digit (d : N) (s : list ascii) :
  d < 16 -> strip_sign (upper_hex d :: s) = (1%Z, upper_hex d :: s).
Proof. intros H. digit_cases d; reflexivity. Qed.

Lemma strip_0x_digits (l : list N) :
  Forall (fun d => d < 16) l -> strip_0x (map upper_hex l) = map upper_hex l.
Proof.
  intros Hl. destruct Hl as [|d l Hd Hl]; [reflexivity|].
  destruct Hl as [|d' l Hd' Hl]; cbn [map].
  - digit_cases d; reflexivity.
  - digit_cases d; try reflexivity. digit_cases d'; reflexivity.
Qed.

(** [parseInt(s, 16)] reads back a non-empty string of such digits,
    with or without ["0x"] in front. *)
Lemma parseInt16_digits (l : list N) :
  l <> [] -> Forall (fun d => d < 16) l ->
  parseInt16 (map upper_hex l) = Some (Z.of_N (from_digits l 0))
  /\ parseInt16 ("0"%char :: "x"%char :: map upper_hex l)
     = Some (Z.of_N (from_digits l 0)).
Proof.
  intros Hne Hl.
  pose proof (digits_prefix_digits l Hl 0 false) as Hp.
  rewrite bool_decide_eq_false_2 in Hp by exact Hne. cbn [orb negb] in Hp.
  split.
  - unfold parseInt16.
    assert (Hs : strip_sign (trim_start (map upper_hex l))
                 = (1%Z, map upper_hex l)).
    { destruct Hl as [|d l Hd Hl]; [contradiction|]. cbn [map trim_start].
      rewrite (upper_hex_not_space d Hd). now apply strip_sign_digit. }
    rewrite Hs. cbv beta iota zeta.
    rewrite (strip_0x_digits l Hl), Hp. cbn [option_map].
    now rewrite Z.mul_1_l.
  - unfold parseInt16.
    change (strip_sign (trim_start ("0"%char :: "x"%char :: map upper_hex l)))
      with (1%Z, "0"%char :: "x"%char :: map upper_hex l).
    cbv beta iota zeta.
    change (strip_0x ("0"%char :: "x"%char :: map upper_hex l))
      with (map upper_hex l).
    rewrite Hp. cbn [option_map]. now rewrite Z.mul_1_l.
Qed.

End HexFacts.

Lemma Number_toString16_integer (z : Z) :
  Number_toString16 (inject_Z z) = Some (Z_toString16 z).
Proof.
  unfold Number_toString16, Qeqb. rewrite Qfloor_Z.
  assert (E : Qeq_bool (inject_Z z) (inject_Z z) = true)
    by (apply Qeq_bool_iff; reflexivity).
  now rewrite E.
Qed.

(** C7.  For every integer [n >= 0], whatever the padding, the prefix
    option and the rounding option, [hex_to_dec] reads [n] back from
    what [dec_to_hex] wrote.  [dec_to_hex(232)] is ["E8"],
    [hex_to_dec("E8")] is 232 and [dec_to_hex(12, 2)] is ["0C"]. *)
Theorem hex_round_trip (n : N) (padding : nat) (prefix round : bool) :
  (exists hex : string,
     Part0.dec_to_hex (inject_Z (Z.of_N n)) padding prefix round = Some hex
     /\ Part0.hex_to_dec hex = Some (Z.of_N n))
  /\ Part0.dec_to_hex 232 0 false true = Some "E8"%string
  /\ Part0.hex_to_dec "E8" = Some 232%Z
  /\ Part0.dec_to_hex 12 2 false true = Some "0C"%string.
Proof.
  split; [|repeat split; reflexivity].
  unfold Part0.dec_to_hex, Part0.hex_to_dec.
  assert (E : (if round then Math_floor (inject_Z (Z.of_N n))
               else inject_Z (Z.of_N n)) = inject_Z (Z.of_N n)).
  { destruct round; [|reflexivity]. unfold Math_floor. now rewrite Qfloor_Z. }
  rewrite E, Number_toString16_integer.
  destruct (HexFacts.padded_upper n padding) as (l & Hl & Hne & Hsmall & Hval).
  destruct (HexFacts.parseInt16_digits l Hne Hsmall) as [Hplain Hprefixed].
  eexists. split; [reflexivity|].
  rewrite list_ascii_of_string_of_list_ascii, Hl.
  rewrite Hval in Hplain, Hprefixed. now destruct prefix.
Qed.

Example hex_to_dec_run :
  Part0.hex_to_dec "0xF6" = Some 246%Z
  /\ Part0.hex_to_dec "64h" = Some 100%Z
  /\ Part0.hex_to_dec "zz" = None
  /\ Part0.dec_to_hex 14 2 true true = Some "0x0E"%string.
Proof. repeat split; reflexivity. Qed.

(** ** random_normal *)

Section RandomNormal.
Context `{MathLib}.

(** [Math.pow(x, 0)] is 1 for every [x] (ECMAScript, Number::exponentiate). *)
Hypothesis pow_zero : forall x : Q, Math_pow x 0 == 1.

Lemma draw_nonzero_first (fuel : nat) (g : source) (n : nat) :
  ~ g n == 0 -> Shared.draw_nonzero (S fuel) g n = (Some (g n), S n).
Proof.
  intros Hu. cbn [Shared.draw_nonzero]. unfold bind, Math_random.
  assert (E : Qeqb (g n) 0 = false).
  { apply not_true_iff_false. intros E. now apply Qeq_bool_iff in E. }
  now rewrite E.
Qed.

Lemma in_unit_tests (num : Q) :
  0 <= num <= 1 -> Qltb 1 num || Qltb num 0 = false.
Proof.
  intros [H0 H1]. apply orb_false_iff.
  split; apply not_true_iff_false; intros E; apply Qltb_lt in E; lra.
Qed.

(** With skew 0 the stretch and the offset compute [(max - min) + min],
    the difference and the sum rounded. *)
Lemma zero_skew_value (num min max : Q) (skew : option Q) :
  skew = None \/ skew = Some 0 ->
  fl (fl (Math_pow num (default 0 skew)
          * fl (default 1 (Some max) - default 0 (Some min)))
      + default 0 (Some min))
  = fl (fl (max - min) + min).
Proof.
  intros Hskew.
  assert (Hpow : Math_pow num (default 0 skew) == 1).
  { destruct Hskew as [-> | ->]; apply pow_zero. }
  cbv [default from_option id] in *.
  assert (E1 : Math_pow num (default 0 skew) * fl (max - min)
               == fl (max - min)).
  { cbv [default from_option id]. rewrite Hpow. ring. }
  cbv [default from_option id] in E1.
  rewrite (fl_proper _ _ E1).
  assert (E2 : fl (fl (max - min)) + min == fl (max - min) + min)
    by (rewrite fl_idempotent; reflexivity).
  now rewrite (fl_proper _ _ E2).
Qed.

(** That sum is [max] when the difference is computed without rounding. *)
Lemma exact_difference (min max : Q) :
  double max -> double (max - min) -> fl (fl (max - min) + min) == max.
Proof.
  intros [Hmax _] [Hdiff _].
  assert (E : fl (max - min) + min == max) by (rewrite Hdiff; ring).
  now rewrite (fl_proper _ _ E).
Qed.

(** With skew 0, a call whose first two draws are not zero and give a
    Box-Muller value inside the unit interval returns that sum. *)
Lemma random_normal_accepts (fuel : nat) (min max : Q) (skew : option Q)
    (g : source) (n : nat) :
  skew = None \/ skew = Some 0 ->
  ~ g n == 0 -> ~ g (S n) == 0 ->
  0 <= Binary64.box_muller (g n) (g (S n)) <= 1 ->
  Binary64.random_normal (S fuel) (Some min) (Some max) skew g n
  = (Some (fl (fl (max - min) + min)), S (S n)).
Proof.
  intros Hskew Hu Hv Hnum.
  cbn [Binary64.random_normal]. unfold bind_opt at 1. unfold bind at 1.
  rewrite (draw_nonzero_first fuel g n Hu).
  unfold bind_opt at 1. unfold bind at 1.
  rewrite (draw_nonzero_first fuel g (S n) Hv).
  rewrite (in_unit_tests _ Hnum).
  unfold ret. now rewrite zero_skew_value.
Qed.

(** With skew 0, whatever the draws, a value returned is that sum. *)
Lemma random_normal_returns (min max : Q) (skew : option Q) :
  skew = None \/ skew = Some 0 ->
  forall (fuel : nat) (g : source) (n n' : nat) (r : Q),
    Binary64.random_normal fuel (Some min) (Some max) skew g n
    = (Some r, n') ->
    r = fl (fl (max - min) + min).
Proof.
  intros Hskew. induction fuel as [|fuel IH]; intros g n n' r Hr.
  - discriminate.
  - cbn [Binary64.random_normal] in Hr.
    unfold bind_opt at 1 in Hr. unfold bind at 1 in Hr.
    destruct (Shared.draw_nonzero (S fuel) g n) as [[u|] n1]; [|discriminate].
    unfold bind_opt at 1 in Hr. unfold bind at 1 in Hr.
    destruct (Shared.draw_nonzero (S fuel) g n1) as [[v|] n2]; [|discriminate].
    destruct (Qltb 1 (Binary64.box_muller u v)
              || Qltb (Binary64.box_muller u v) 0).
    + now apply IH in Hr.
    + injection Hr as <- _. now apply zero_skew_value.
Qed.
End RandomNormal.

(** C9, the claim as stated fails for doubles.  [random_normal(0.2, 0.9)]
    with both draws 0.5 accepts its Box-Muller value and returns
    [(0.9 - 0.2) + 0.2], which is 0.8999999999999999: the difference of
    the bounds is rounded, and adding [min] again does not give [max]
    back.  So it is on every accepted call, whatever the host's
    [Math.sqrt], [Math.log] and [Math.cos] return. *)
Lemma random_normal_below_max :
  (exists r : Q,
     @Binary64.random_normal rational_math 1%nat (Some (fl (2 # 10)))
       (Some (fl (9 # 10))) (Some 0) half_draws 0%nat
     = (Some r, 2%nat)
     /\ r < fl (9 # 10))
  /\ forall (M : MathLib) (fuel : nat) (g : source) (n : nat),
       (forall x : Q, Math_pow x 0 == 1) ->
       ~ g n == 0 -> ~ g (S n) == 0 ->
       0 <= Binary64.box_muller (g n) (g (S n)) <= 1 ->
       exists r : Q,
         Binary64.random_normal (S fuel) (Some (fl (2 # 10)))
           (Some (fl (9 # 10))) (Some 0) g n
         = (Some r, S (S n))
         /\ r < fl (9 # 10).
Proof.
  split.
  - eexists. split; [vm_compute; reflexivity|]. vm_compute. reflexivity.
  - intros M fuel g n Hpow Hu Hv Hnum. eexists. split.
    + apply random_normal_accepts; [exact Hpow | now right | | |]; assumption.
    + vm_compute. reflexivity.
Qed.

(** The bounds of the two cases named in the next theorem: [min] is 0,
    or both lie on one binary grid. *)
Lemma random_normal_exact_bounds `{MathLib} (skew : option Q) (fuel : nat)
    (g : source) (n : nat) :
  (forall x : Q, Math_pow x 0 == 1) ->
  skew = None \/ skew = Some 0 ->
  ~ g n == 0 -> ~ g (S n) == 0 ->
  0 <= Binary64.box_muller (g n) (g (S n)) <= 1 ->
  (forall max : Q, double max ->
     exists r : Q,
       Binary64.random_normal (S fuel) (Some 0) (Some max) skew g n
       = (Some r, S (S n))
       /\ r == max)
  /\ (forall min max s : Z,
        (Z.abs min < 2 ^ 52)%Z -> (Z.abs max < 2 ^ 52)%Z ->
        (-1074 <= s <= 971)%Z ->
        exists r : Q,
          Binary64.random_normal (S fuel) (Some (dyadic min s))
            (Some (dyadic max s)) skew g n
          = (Some r, S (S n))
          /\ r == dyadic max s).
Proof.
  intros Hpow Hskew Hu Hv Hnum. split.
  - intros max Hmax. eexists. split.
    + now apply random_normal_accepts.
    + apply exact_difference; [exact Hmax | now apply double_minus_zero].
  - intros min max s Hmin Hmax Hs. eexists. split.
    + now apply random_normal_accepts.
    + apply exact_difference.
      * apply double_dyadic; lia.
      * rewrite dyadic_minus. apply double_dyadic; lia.
Qed.

(** C9.  With skew 0, given or by default, and bounds whose difference
    [max - min] is computed without rounding (as it is when [min] is 0, or
    when both lie on one binary grid, two integers below [2 ^ 52] for
    instance), [random_normal(min, max, skew)]
    returns [max] on a call whose Box-Muller value, moved to the unit
    interval, falls inside [[0, 1]]; and any value it returns after
    resampling is [max] as well. *)
Theorem random_normal_zero_skew `{MathLib} (min max : Q) (skew : option Q)
    (fuel : nat) (g : source) (n : nat) :
  (forall x : Q, Math_pow x 0 == 1) ->
  skew = None \/ skew = Some 0 ->
  double max -> double (max - min) ->
  ~ g n == 0 -> ~ g (S n) == 0 ->
  0 <= Binary64.box_muller (g n) (g (S n)) <= 1 ->
  (exists r : Q,
     Binary64.random_normal (S fuel) (Some min) (Some max) skew g n
     = (Some r, S (S n))
     /\ r == max)
  /\ forall (fuel' : nat) (g' : source) (n' n'' : nat) (r : Q),
       Binary64.random_normal fuel' (Some min) (Some max) skew g' n'
       = (Some r, n'') ->
       r == max.
Proof.
  intros Hpow Hskew Hmax Hdiff Hu Hv Hnum. split.
  - eexists. split; [now apply random_normal_accepts|].
    now apply exact_difference.
  - intros fuel' g' n' n'' r Hr.
    apply random_normal_returns in Hr; [|exact Hpow | exact Hskew].
    subst r. now apply exact_difference.
Qed.

Lemma random_normal_zero_skew_witness :
  (exists r : Q,
     @Binary64.random_normal rational_math 1%nat (Some 2) (Some 5) None
       half_draws 0%nat
     = (Some r, 2%nat)
     /\ r == 5)
  /\ forall (fuel' : nat) (g' : source) (n' n'' : nat) (r : Q),
       @Binary64.random_normal rational_math fuel' (Some 2) (Some 5) None g' n'
       = (Some r, n'') ->
       r == 5.
Proof.
  apply (@random_normal_zero_skew rational_math 2 5 None 0%nat half_draws 0%nat).
  - intros x. reflexivity.
  - left. reflexivity.
  - split; vm_compute; reflexivity.
  - split; vm_compute; reflexivity.
  - discriminate.
  - discriminate.
  - split; vm_compute; discriminate.
Defined.

(** The bounds may also be fractions: 0.25 and 0.75 differ by 0.5. *)
Example random_normal_run :
  exists r : Q,
    @Binary64.random_normal rational_math 1%nat (Some (1 # 4)) (Some (3 # 4))
      (Some 0) half_draws 0%nat
    = (Some r, 2%nat)
    /\ r == 3 # 4.
Proof. eexists. split; [vm_compute; reflexivity|]. vm_compute. reflexivity. Qed.

(** ** random_string *)

Lemma chars_append (s t : string) :
  list_ascii_of_string (s ++ t)
  = list_ascii_of_string s ++ list_ascii_of_string t.
Proof. induction s as [|c s IH]; [reflexivity|]. simpl. now rewrite IH. Qed.

Lemma chars_length (s : string) :
  String.length s = length (list_ascii_of_string s).
Proof. induction s as [|c s IH]; [reflexivity|]. simpl. now rewrite IH. Qed.

(** Reading [characters] at a draw gives one character of the alphabet,
    as a string. *)
Lemma characters_read (g : source) (n : nat) :
  0 <= g n < 1 ->
  exists c : ascii,
    In c (list_ascii_of_string Part0.alphabet)
    /\ Part0.random_from_array Part0.characters g n
       = (SString (String c EmptyString), S n).
Proof.
  intros Hu.
  destruct (random_from_array_uniform Part0.characters g n) as (k & _ & Hk & _);
    [discriminate | exact Hu |].
  apply list_elem_of_lookup_2, list_elem_of_In in Hk.
  unfold Part0.characters, split_chars in Hk.
  apply in_map_iff in Hk. destruct Hk as (s & Hs & Hin).
  apply in_map_iff in Hin. destruct Hin as (c & Hc & Hin).
  exists c. split; [exact Hin|].
  rewrite Hc, Hs. reflexivity.
Qed.

Lemma random_string_loop_spec (g : source) :
  unit_draws g ->
  forall (count : nat) (result : string) (n : nat),
    exists l : list ascii,
      list_ascii_of_string
        (value_of (Part0.random_string_loop count result) g n)
      = list_ascii_of_string result ++ l
      /\ length l = count
      /\ Forall (fun c => In c (list_ascii_of_string Part0.alphabet)) l.
Proof.
  intros Hg. induction count as [|count IH]; intros result n.
  - exists []. split; [|split]; [|reflexivity|constructor].
    unfold value_of. simpl. now rewrite app_nil_r.
  - destruct (characters_read g n (Hg n)) as (c & Hc & Hread).
    destruct (IH (result ++ String c EmptyString)%string (S n))
      as (l & Hl & Hlen & Hall).
    exists (c :: l). split; [|split].
    + unfold value_of in *. cbn [Part0.random_string_loop].
      unfold bind at 1. rewrite Hread. cbn [to_str]. rewrite Hl.
      rewrite chars_append. simpl. now rewrite <- app_assoc.
    + simpl. now rewrite Hlen.
    + now constructor.
Qed.

Lemma alphabet_alphanumeric (c : ascii) :
  In c (list_ascii_of_string Part0.alphabet) <-> alphanumeric c = true.
Proof.
  assert (E : existsb (Ascii.eqb c) (list_ascii_of_string Part0.alphabet)
              = alphanumeric c).
  { destruct c as [[] [] [] [] [] [] [] []]; vm_compute; reflexivity. }
  rewrite <- E, existsb_exists. split.
  - intros Hin. exists c. split; [exact Hin | apply Ascii.eqb_refl].
  - intros (c' & Hin & Heq). apply Ascii.eqb_eq in Heq. now subst.
Qed.

(** C10.  For every integer [len >= 0] and all draws, [random_string(len)]
    has length [len] and consists of characters of the alphabet, the 62
    letters and digits of ASCII. *)
Theorem random_string_alphanumeric (len : nat) (g : source) (n : nat) :
  unit_draws g ->
  (let s := value_of (Part0.random_string (inject_Z (Z.of_nat len))) g n in
   String.length s = len
   /\ Forall (fun c => In c (list_ascii_of_string Part0.alphabet))
        (list_ascii_of_string s))
  /\ length (list_ascii_of_string Part0.alphabet) = 62%nat
  /\ forall c : ascii,
       In c (list_ascii_of_string Part0.alphabet) <-> alphanumeric c = true.
Proof.
  intros Hg. split; [|split; [reflexivity | exact alphabet_alphanumeric]].
  unfold Part0.random_string. rewrite Qceiling_Z, Nat2Z.id.
  destruct (random_string_loop_spec g Hg len EmptyString n) as (l & Hl & Hlen & Hall).
  cbv zeta. rewrite chars_length, Hl. simpl. split; assumption.
Qed.

Lemma random_string_alphanumeric_witness :
  (let s := value_of (Part0.random_string (inject_Z (Z.of_nat 4))) half_draws 0 in
   String.length s = 4%nat
   /\ Forall (fun c => In c (list_ascii_of_string Part0.alphabet))
        (list_ascii_of_string s))
  /\ length (list_ascii_of_string Part0.alphabet) = 62%nat
  /\ forall c : ascii,
       In c (list_ascii_of_string Part0.alphabet) <-> alphanumeric c = true.
Proof.
  apply (random_string_alphanumeric 4 half_draws 0).
  intros n. unfold half_draws. split; [discriminate | reflexivity].
Defined.

Example random_string_run :
  value_of (Part0.random_string 4) half_draws 0 = "ffff"%string.
Proof. reflexivity. Qed.

(** ** Empty inputs *)

Lemma elem_get_empty `{Undefined V} (k : Q) : elem_get (@nil V) k = undefined.
Proof. unfold elem_get. now destruct (index_of k). Qed.

(** C4, the claim as stated fails: on the empty array [random_from_array]
    returns, it does not throw. *)
Lemma random_from_array_empty_returns :
  run (Part0.random_from_array (@nil (option Z))) half_draws 0 = Returns None
  /\ ~ exists error : string,
         run (Part0.random_from_array (@nil (option Z))) half_draws 0
         = Throws error.
Proof.
  split; [reflexivity|]. intros [error E]. discriminate E.
Qed.

(** C4, amended.  On empty input no error is raised:
    [random_from_array([])] returns [undefined], [shuffle_array([])]
    leaves the array empty and [shuffle_string("")] returns [""]. *)
Theorem empty_input_returns `{Undefined V} (g : source) (n : nat) :
  run (UtilsJs.random_from_array (@nil V)) g n = Returns undefined
  /\ run (Part0.random_from_array (@nil V)) g n = Returns undefined
  /\ run (UtilsJs.shuffle_array (@nil V)) g n = Returns []
  /\ run (Part0.shuffle_array (@nil V)) g n = Returns []
  /\ run (Part0.shuffle_string EmptyString) g n = Returns EmptyString.
Proof.
  unfold run. repeat split; try reflexivity; f_equal.
  - cbv [value_of UtilsJs.random_from_array UtilsJs.random_int
         UtilsJs.random_int_between bind Math_random ret fst].
    apply elem_get_empty.
  - cbv [value_of Part0.random_from_array bind Math_random ret fst].
    apply elem_get_empty.
Qed.

(** * Further properties *)

(** ** random, random_interval *)

(** A draw stretched by [w] and moved by [a], each operation rounded,
    stays at or above [a]. *)
Lemma stretch_lower (u w a : Q) :
  0 <= u -> 0 <= w -> fl a == a -> a <= fl (fl (u * w) + a).
Proof.
  intros Hu Hw Ha.
  assert (Hp : 0 <= fl (u * w)).
  { apply fl_nonneg, Qmult_le_0_compat; assumption. }
  apply Qle_trans with (fl a); [rewrite Ha; apply Qle_refl|].
  apply fl_monotone. lra.
Qed.

(** It stays at or below [b] when [w] is a double and [w + a] is the
    double [b]. *)
Lemma stretch_upper (u w a b : Q) :
  0 <= u <= 1 -> 0 <= w -> fl w == w -> w + a == b -> fl b == b ->
  fl (fl (u * w) + a) <= b.
Proof.
  intros [Hu0 Hu1] Hw Hfw Hsum Hb.
  assert (Hp : fl (u * w) <= w).
  { apply Qle_trans with (fl w); [|rewrite Hfw; apply Qle_refl].
    apply fl_monotone.
    assert (u * w <= 1 * w) by (apply Qmult_le_compat_r; assumption). lra. }
  apply Qle_trans with (fl b); [|rewrite Hb; apply Qle_refl].
  apply fl_monotone. lra.
Qed.

Lemma grid_width (a b s : Z) :
  (Z.abs a < 2 ^ 52)%Z -> (Z.abs b < 2 ^ 52)%Z -> (-1074 <= s)%Z ->
  fl (dyadic b s - dyadic a s) == dyadic (b - a) s.
Proof. intros Ha Hb Hs. apply fl_grid; [apply dyadic_minus | lia | exact Hs]. Qed.

(** Between two points of one binary grid the stretched draw stays in the
    closed interval. *)
Lemma stretch_grid (u : Q) (a b s : Z) :
  0 <= u <= 1 ->
  (Z.abs a < 2 ^ 52)%Z -> (Z.abs b < 2 ^ 52)%Z -> (-1074 <= s)%Z ->
  (a <= b)%Z ->
  dyadic a s
  <= fl (fl (u * fl (dyadic b s - dyadic a s)) + dyadic a s)
  <= dyadic b s.
Proof.
  intros Hu Ha Hb Hs Hab.
  pose proof (grid_width a b s Ha Hb Hs) as Hw.
  assert (H0 : 0 <= fl (dyadic b s - dyadic a s)).
  { apply fl_nonneg. apply dyadic_le with (s := s) in Hab. lra. }
  split.
  - apply stretch_lower; [apply Hu | exact H0 | apply fl_dyadic; lia].
  - apply stretch_upper; [exact Hu | exact H0 | apply fl_idempotent | |].
    + rewrite Hw, dyadic_plus. now replace (b - a + a)%Z with b by lia.
    + apply fl_dyadic; lia.
Qed.

(** [random(a, b)] never falls below [a] (for bounds whose difference
    does not overflow), [random(a)] lies in [[0, a]], and between two
    points of one binary grid (two integers below [2 ^ 52], for instance)
    [random(a, b)] lies in [[a, b]], the upper bound included;
    src/utils.js computes the same values. *)
Theorem random_closed_range (g : source) (n : nat) :
  0 <= g n < 1 ->
  (forall a b : Q, double a -> double b -> a <= b -> b - a < 2 ^ 1023 ->
     a <= value_of (Binary64.Part0.random (Some a) (Some b)) g n)
  /\ (forall a : Q, double a -> 0 <= a ->
        0 <= value_of (Binary64.Part0.random (Some a) None) g n <= a)
  /\ (forall a b s : Z,
        (Z.abs a < 2 ^ 52)%Z -> (Z.abs b < 2 ^ 52)%Z ->
        (-1074 <= s <= 971)%Z -> (a <= b)%Z ->
        dyadic a s
        <= value_of
             (Binary64.Part0.random (Some (dyadic a s)) (Some (dyadic b s)))
             g n
        <= dyadic b s)
  /\ (forall a b : Q,
        value_of (Binary64.UtilsJs.random (Some a) (Some b)) g n
        = Some (value_of (Binary64.Part0.random (Some a) (Some b)) g n))
  /\ (forall a : Q,
        value_of (Binary64.UtilsJs.random (Some a) None) g n
        = Some (value_of (Binary64.Part0.random (Some a) None) g n)).
Proof.
  intros [Hu0 Hu1].
  cbv [value_of Binary64.Part0.random Binary64.UtilsJs.random
       Binary64.UtilsJs.random_between bind Math_random ret fst default
       from_option id].
  split; [|split; [|split; [|split; reflexivity]]].
  - intros a b [Ha _] _ Hab _.
    apply stretch_lower; [exact Hu0 | | exact Ha]. apply fl_nonneg. lra.
  - intros a [Ha _] H0.
    assert (Ew : fl (a - 0) == a).
    { assert (E : a - 0 == a) by ring. now rewrite (fl_proper _ _ E). }
    split.
    + apply stretch_lower; [exact Hu0 | rewrite Ew; exact H0 | reflexivity].
    + apply stretch_upper; [split; lra | rewrite Ew; exact H0 | | | exact Ha].
      * apply fl_idempotent.
      * rewrite Ew. ring.
  - intros a b s Ha Hb Hs Hab. apply stretch_grid; [split; lra | | | |]; lia.
Qed.

Lemma random_closed_range_witness :
  (forall a b : Q, double a -> double b -> a <= b -> b - a < 2 ^ 1023 ->
     a <= value_of (Binary64.Part0.random (Some a) (Some b)) half_draws 0)
  /\ (forall a : Q, double a -> 0 <= a ->
        0 <= value_of (Binary64.Part0.random (Some a) None) half_draws 0 <= a)
  /\ (forall a b s : Z,
        (Z.abs a < 2 ^ 52)%Z -> (Z.abs b < 2 ^ 52)%Z ->
        (-1074 <= s <= 971)%Z -> (a <= b)%Z ->
        dyadic a s
        <= value_of
             (Binary64.Part0.random (Some (dyadic a s)) (Some (dyadic b s)))
             half_draws 0
        <= dyadic b s)
  /\ (forall a b : Q,
        value_of (Binary64.UtilsJs.random (Some a) (Some b)) half_draws 0
        = Some (value_of (Binary64.Part0.random (Some a) (Some b))
                  half_draws 0))
  /\ (forall a : Q,
        value_of (Binary64.UtilsJs.random (Some a) None) half_draws 0
        = Some (value_of (Binary64.Part0.random (Some a) None) half_draws 0)).
Proof.
  apply (random_closed_range half_draws 0).
  unfold half_draws. split; [discriminate | reflexivity].
Defined.

(** For an average and an interval [>= 0] on one binary grid,
    [random_interval(average, interval)] lies in
    [[average - interval, average + interval]], in both files; they
    differ in the defaults: without arguments the result is in [[0, 1]]
    in part_000 and in [[-1, 1]] in src/utils.js. *)
Theorem random_interval_closed_range (g : source) (n : nat) :
  0 <= g n < 1 ->
  (forall c i s : Z,
     (Z.abs c < 2 ^ 51)%Z -> (0 <= i < 2 ^ 51)%Z -> (-1074 <= s <= 971)%Z ->
     dyadic c s - dyadic i s
     <= value_of
          (Binary64.Part0.random_interval (Some (dyadic c s))
             (Some (dyadic i s)))
          g n
     <= dyadic c s + dyadic i s
     /\ exists r : Q,
          value_of
            (Binary64.UtilsJs.random_interval (Some (dyadic c s))
               (Some (dyadic i s)))
            g n
          = Some r
          /\ dyadic c s - dyadic i s <= r <= dyadic c s + dyadic i s)
  /\ 0 <= value_of (Binary64.Part0.random_interval None None) g n <= 1
  /\ exists r : Q,
       value_of (Binary64.UtilsJs.random_interval None None) g n = Some r
       /\ - (1) <= r <= 1.
Proof.
  intros [Hu0 Hu1].
  assert (Hu : 0 <= g n <= 1) by (split; lra).
  cbv [value_of Binary64.Part0.random_interval Binary64.UtilsJs.random_interval
       Binary64.UtilsJs.random Binary64.UtilsJs.random_between bind Math_random
       ret fst default from_option id].
  split; [|split].
  - intros c i s Hc Hi Hs.
    assert (EA : dyadic c s - dyadic i s == dyadic (c - i) s)
      by apply dyadic_minus.
    assert (EB : dyadic c s + dyadic i s == dyadic (c + i) s)
      by apply dyadic_plus.
    set (A := dyadic c s - dyadic i s) in *.
    set (B := dyadic c s + dyadic i s) in *.
    assert (FA : fl A == A).
    { rewrite EA at 2. apply fl_grid; [exact EA | lia | lia]. }
    assert (FB : fl B == B).
    { rewrite EB at 2. apply fl_grid; [exact EB | lia | lia]. }
    assert (HAB : A <= B).
    { rewrite EA, EB. apply dyadic_le. lia. }
    split.
    + assert (Ew : fl (dyadic i s * 2) == dyadic (2 * i) s).
      { apply fl_grid; [|lia | lia]. unfold dyadic.
        rewrite inject_Z_mult. change (inject_Z 2) with 2. ring. }
      assert (H0 : 0 <= fl (dyadic i s * 2)).
      { apply fl_nonneg. unfold dyadic.
        assert (0 <= inject_Z i * 2 ^ s); [|lra].
        apply Qmult_le_0_compat.
        - change 0 with (inject_Z 0). rewrite <- Zle_Qle. lia.
        - apply Qlt_le_weak, two_power_pos. }
      split.
      * apply Qle_trans with (fl A); [rewrite FA; apply Qle_refl|].
        apply stretch_lower; [exact Hu0 | exact H0 | apply fl_idempotent].
      * apply stretch_upper;
          [exact Hu | exact H0 | apply fl_idempotent | | exact FB].
        rewrite Ew, FA, EA, EB, dyadic_plus.
        now replace (2 * i + (c - i))%Z with (c + i)%Z by lia.
    + eexists. split; [reflexivity|].
      assert (Ew : fl (fl B - fl A) == dyadic (2 * i) s).
      { apply fl_grid; [|lia | lia].
        rewrite FA, FB, EA, EB, dyadic_minus.
        now replace (c + i - (c - i))%Z with (2 * i)%Z by lia. }
      assert (H0 : 0 <= fl (fl B - fl A)).
      { apply fl_nonneg. rewrite FA, FB. lra. }
      split.
      * apply Qle_trans with (fl A); [rewrite FA; apply Qle_refl|].
        apply stretch_lower; [exact Hu0 | exact H0 | apply fl_idempotent].
      * apply stretch_upper;
          [exact Hu | exact H0 | apply fl_idempotent | | exact FB].
        rewrite Ew, FA, EA, EB, dyadic_plus.
        now replace (2 * i + (c - i))%Z with (c + i)%Z by lia.
  - assert (Ew : fl ((1 # 2) * 2) == 1) by (vm_compute; reflexivity).
    assert (Ea : fl ((1 # 2) - (1 # 2)) == 0) by (vm_compute; reflexivity).
    assert (E : fl (g n * fl ((1 # 2) * 2)) + fl ((1 # 2) - (1 # 2))
                == fl (g n * 1) + 0).
    { assert (E1 : g n * fl ((1 # 2) * 2) == g n * 1) by (rewrite Ew; reflexivity).
      rewrite (fl_proper _ _ E1), Ea. reflexivity. }
    rewrite (fl_proper _ _ E). split.
    + apply stretch_lower; [exact Hu0 | lra | reflexivity].
    + apply stretch_upper; [exact Hu | lra | | |]; vm_compute; reflexivity.
  - eexists. split; [reflexivity|].
    assert (Elo : fl (0 - 1) == - (1)) by (vm_compute; reflexivity).
    assert (Ew : fl (fl (0 + 1) - fl (0 - 1)) == 2) by (vm_compute; reflexivity).
    assert (E : fl (g n * fl (fl (0 + 1) - fl (0 - 1))) + fl (0 - 1)
                == fl (g n * 2) + - (1)).
    { assert (E1 : g n * fl (fl (0 + 1) - fl (0 - 1)) == g n * 2)
        by (rewrite Ew; reflexivity).
      rewrite (fl_proper _ _ E1), Elo. reflexivity. }
    rewrite (fl_proper _ _ E). split.
    + apply stretch_lower; [exact Hu0 | lra | vm_compute; reflexivity].
    + apply stretch_upper; [exact Hu | lra | | |]; vm_compute; reflexivity.
Qed.

Lemma random_interval_closed_range_witness :
  (forall c i s : Z,
     (Z.abs c < 2 ^ 51)%Z -> (0 <= i < 2 ^ 51)%Z -> (-1074 <= s <= 971)%Z ->
     dyadic c s - dyadic i s
     <= value_of
          (Binary64.Part0.random_interval (Some (dyadic c s))
             (Some (dyadic i s)))
          half_draws 0
     <= dyadic c s + dyadic i s
     /\ exists r : Q,
          value_of
            (Binary64.UtilsJs.random_interval (Some (dyadic c s))
               (Some (dyadic i s)))
            half_draws 0
          = Some r
          /\ dyadic c s - dyadic i s <= r <= dyadic c s + dyadic i s)
  /\ 0 <= value_of (Binary64.Part0.random_interval None None) half_draws 0 <= 1
  /\ exists r : Q,
       value_of (Binary64.UtilsJs.random_interval None None) half_draws 0
       = Some r
       /\ - (1) <= r <= 1.
Proof.
  apply (random_interval_closed_range half_draws 0).
  unfold half_draws. split; [discriminate | reflexivity].
Defined.

(** ** random_int *)

Lemma floor_integer_range (u : Q) (a b : Z) :
  0 <= u < 1 -> (a < b)%Z ->
  exists k : Z,
    Math_floor (u * (inject_Z b - inject_Z a)) + inject_Z a == inject_Z k
    /\ (a <= k < b)%Z.
Proof.
  intros Hu Hab.
  assert (E : u * (inject_Z b - inject_Z a) == u * inject_Z (b - a)).
  { unfold Z.sub. rewrite inject_Z_plus, inject_Z_opp. reflexivity. }
  assert (Hm : (0 < b - a)%Z) by lia.
  pose proof (floor_scaled_draw u (b - a) Hu Hm) as Hz.
  exists (Qfloor (u * inject_Z (b - a)) + a)%Z. split; [|lia].
  unfold Math_floor. rewrite inject_Z_plus.
  rewrite (Qfloor_comp _ _ E). reflexivity.
Qed.

(** For integer bounds [a < b], [random_int(a, b)] is an integer of
    [[a, b)]; [random_int(a)] with an integer [a > 0] is an integer of
    [[0, a)]; [random_int()] is 0 or 1. *)
Theorem random_int_in_range (g : source) (n : nat) :
  0 <= g n < 1 ->
  (forall a b : Z, (a < b)%Z ->
     exists k : Z,
       value_of (Part0.random_int (Some (inject_Z a)) (Some (inject_Z b))) g n
       == inject_Z k
       /\ (a <= k < b)%Z)
  /\ (forall a : Z, (0 < a)%Z ->
        exists k : Z,
          value_of (Part0.random_int (Some (inject_Z a)) None) g n
          == inject_Z k
          /\ (0 <= k < a)%Z)
  /\ (value_of (Part0.random_int None None) g n == 0
      \/ value_of (Part0.random_int None None) g n == 1).
Proof.
  intros Hu.
  cbv [value_of Part0.random_int bind Math_random ret fst default
       from_option id].
  split; [|split].
  - intros a b Hab. now apply floor_integer_range.
  - intros a Ha. now apply (floor_integer_range (g n) 0 a).
  - destruct (floor_integer_range (g n) 0 2 Hu) as (k & Hk & Hr); [lia|].
    change (inject_Z 2) with 2 in Hk. change (inject_Z 0) with 0 in Hk.
    rewrite Hk.
    assert (Hc : k = 0%Z \/ k = 1%Z) by lia.
    destruct Hc as [-> | ->]; [left | right]; reflexivity.
Qed.

Lemma random_int_in_range_witness :
  (forall a b : Z, (a < b)%Z ->
     exists k : Z,
       value_of (Part0.random_int (Some (inject_Z a)) (Some (inject_Z b)))
         half_draws 0
       == inject_Z k
       /\ (a <= k < b)%Z)
  /\ (forall a : Z, (0 < a)%Z ->
        exists k : Z,
          value_of (Part0.random_int (Some (inject_Z a)) None) half_draws 0
          == inject_Z k
          /\ (0 <= k < a)%Z)
  /\ (value_of (Part0.random_int None None) half_draws 0 == 0
      \/ value_of (Part0.random_int None None) half_draws 0 == 1).
Proof.
  apply (random_int_in_range half_draws 0).
  unfold half_draws. split; [discriminate | reflexivity].
Defined.

(** Without arguments the [random_int] of src/utils.js draws in [[0, 1)]
    and so returns 0 on every call. *)
Theorem utils_random_int_default_zero (g : source) (n : nat) :
  0 <= g n < 1 ->
  exists r : Q,
    value_of (UtilsJs.random_int None None) g n = Some r /\ r == 0.
Proof.
  intros Hu.
  cbv [value_of UtilsJs.random_int UtilsJs.random_int_between bind
       Math_random ret fst].
  eexists. split; [reflexivity|].
  destruct (floor_integer_range (g n) 0 1 Hu) as (k & Hk & Hr); [lia|].
  change (inject_Z 1) with 1 in Hk. change (inject_Z 0) with 0 in Hk.
  rewrite Hk. assert (k = 0%Z) by lia. subst k. reflexivity.
Qed.

Lemma utils_random_int_default_zero_witness :
  exists r : Q,
    value_of (UtilsJs.random_int None None) (fun _ => 99 # 100) 0 = Some r
    /\ r == 0.
Proof.
  apply (utils_random_int_default_zero (fun _ => 99 # 100) 0).
  split; [discriminate | reflexivity].
Defined.

(** ** clamp, constrain *)

Lemma clamp_cases (value min_val max_val : Q) :
  (max_val < Qmax min_val value /\ Part0.clamp value min_val max_val == max_val)
  \/ (Qmax min_val value <= max_val
      /\ Part0.clamp value min_val max_val == Qmax min_val value).
Proof.
  unfold Part0.clamp.
  destruct (Q.min_spec (Qmax min_val value) max_val) as [[Hlt E] | [Hle E]].
  - right. split; [lra | exact E].
  - destruct (Qlt_le_dec max_val (Qmax min_val value)) as [Hc | Hc].
    + left. split; [exact Hc | exact E].
    + right. split; [exact Hc|]. rewrite E. lra.
Qed.

Lemma constrain_cases (x min_val max_val : Q) :
  (Qmin x max_val < min_val /\ UtilsJs.constrain x min_val max_val == min_val)
  \/ (min_val <= Qmin x max_val
      /\ UtilsJs.constrain x min_val max_val == Qmin x max_val).
Proof.
  unfold UtilsJs.constrain.
  destruct (Q.max_spec (Qmin x max_val) min_val) as [[Hlt E] | [Hle E]].
  - left. split; [exact Hlt | exact E].
  - right. split; [exact Hle | exact E].
Qed.

(** For [min_val <= max_val], [clamp] gives a value of
    [[min_val, max_val]], leaves the values of that interval as they are,
    sends the others to the nearer bound, and agrees with the [constrain]
    of src/utils.js. *)
Theorem clamp_into_interval (value min_val max_val : Q) :
  min_val <= max_val ->
  min_val <= Part0.clamp value min_val max_val <= max_val
  /\ (min_val <= value <= max_val ->
      Part0.clamp value min_val max_val == value)
  /\ (value < min_val -> Part0.clamp value min_val max_val == min_val)
  /\ (max_val < value -> Part0.clamp value min_val max_val == max_val)
  /\ UtilsJs.constrain value min_val max_val
     == Part0.clamp value min_val max_val.
Proof.
  intros Hb.
  destruct (clamp_cases value min_val max_val) as [[Hc Ec] | [Hc Ec]];
    destruct (constrain_cases value min_val max_val) as [[Hk Ek] | [Hk Ek]];
    destruct (Q.max_spec min_val value) as [[Hm Em] | [Hm Em]];
    destruct (Q.min_spec value max_val) as [[Hn En] | [Hn En]];
    rewrite Ec, Ek; rewrite ?Em, ?En in *;
    repeat split; try intros; try lra.
Qed.

Lemma clamp_into_interval_witness :
  -3 <= Part0.clamp (-5) (-3) 10 <= 10
  /\ (-3 <= -5 <= 10 -> Part0.clamp (-5) (-3) 10 == -5)
  /\ (-5 < -3 -> Part0.clamp (-5) (-3) 10 == -3)
  /\ (10 < -5 -> Part0.clamp (-5) (-3) 10 == 10)
  /\ UtilsJs.constrain (-5) (-3) 10 == Part0.clamp (-5) (-3) 10.
Proof. apply (clamp_into_interval (-5) (-3) 10). discriminate. Defined.

(** With the bounds in reverse order, [max_val < min_val], [clamp]
    returns [max_val] and [constrain] returns [min_val], whatever the
    value. *)
Theorem clamp_reversed_bounds (value min_val max_val : Q) :
  max_val < min_val ->
  Part0.clamp value min_val max_val == max_val
  /\ UtilsJs.constrain value min_val max_val == min_val.
Proof.
  intros Hb.
  destruct (clamp_cases value min_val max_val) as [[Hc Ec] | [Hc Ec]];
    destruct (constrain_cases value min_val max_val) as [[Hk Ek] | [Hk Ek]];
    destruct (Q.max_spec min_val value) as [[Hm Em] | [Hm Em]];
    destruct (Q.min_spec value max_val) as [[Hn En] | [Hn En]];
    rewrite Ec, Ek; rewrite ?Em, ?En in *;
    split; lra.
Qed.

Lemma clamp_reversed_bounds_witness :
  Part0.clamp 5 10 0 == 0 /\ UtilsJs.constrain 5 10 0 == 10.
Proof. apply (clamp_reversed_bounds 5 10 0). reflexivity. Defined.

(** ** map *)

(** [map] keeps the order of the values when both intervals are given
    in increasing order. *)
Theorem map_monotone (v w old_min old_max new_min new_max : Q) :
  old_min < old_max -> new_min <= new_max -> v <= w ->
  Shared.map v old_min old_max new_min new_max
  <= Shared.map w old_min old_max new_min new_max.
Proof.
  intros Hold Hnew Hvw. unfold Shared.map.
  apply Qplus_le_l. apply Qmult_le_compat_r.
  - apply Qmult_le_compat_r; lra.
  - apply Qlt_le_weak, Qinv_lt_0_compat. lra.
Qed.

Lemma map_monotone_witness :
  Shared.map 64 0 255 1024 2048 <= Shared.map 192 0 255 1024 2048.
Proof. apply map_monotone; [reflexivity | discriminate | discriminate]. Defined.

(** ** poly_ease_in, poly_ease_out, poly_ease_inout *)

Lemma Qpower_succ_nat (x : Q) (n : nat) :
  x ^ Z.of_nat (S n) == x * x ^ Z.of_nat n.
Proof.
  rewrite Nat2Z.inj_succ. unfold Z.succ.
  rewrite Z.add_comm, Qpower_plus' by lia. reflexivity.
Qed.

Lemma Qpower_nat_monotone (x x' : Q) (n : nat) :
  0 <= x <= x' -> 0 <= x ^ Z.of_nat n <= x' ^ Z.of_nat n.
Proof.
  intros [Hx Hxx']. induction n as [|n [IH0 IH1]].
  - split; discriminate.
  - rewrite !Qpower_succ_nat. split.
    + apply Qmult_le_0_compat; assumption.
    + apply Qle_trans with (x * x' ^ Z.of_nat n).
      * rewrite !(Qmult_comm x). apply Qmult_le_compat_r; assumption.
      * apply Qmult_le_compat_r; [exact Hxx' | lra].
Qed.

Lemma Qpower_nat_unit (x : Q) (n : nat) :
  0 <= x <= 1 -> 0 <= x ^ Z.of_nat n <= 1.
Proof.
  intros Hx. pose proof (Qpower_nat_monotone x 1 n Hx) as H.
  rewrite Qpower_1 in H. exact H.
Qed.

(** On [[0, 1]] the curves [poly_ease_in] and [poly_ease_out] of every
    degree stay in [[0, 1]] and never decrease. *)
Theorem poly_ease_range_monotone (x x' : Q) (n : nat) :
  0 <= x -> x <= x' -> x' <= 1 ->
  0 <= Part0.poly_ease_in x n <= 1
  /\ 0 <= Part0.poly_ease_out x n <= 1
  /\ Part0.poly_ease_in x n <= Part0.poly_ease_in x' n
  /\ Part0.poly_ease_out x n <= Part0.poly_ease_out x' n.
Proof.
  intros H0 Hxx' H1. unfold Part0.poly_ease_in, Part0.poly_ease_out.
  assert (Hin : 0 <= x ^ Z.of_nat n <= 1) by (apply Qpower_nat_unit; lra).
  assert (Hout : 0 <= (1 - x) ^ Z.of_nat n <= 1)
    by (apply Qpower_nat_unit; lra).
  assert (Hmi : 0 <= x ^ Z.of_nat n <= x' ^ Z.of_nat n)
    by (apply Qpower_nat_monotone; lra).
  assert (Hmo : 0 <= (1 - x') ^ Z.of_nat n <= (1 - x) ^ Z.of_nat n)
    by (apply Qpower_nat_monotone; lra).
  repeat split; lra.
Qed.

Lemma poly_ease_range_monotone_witness :
  0 <= Part0.poly_ease_in (1 # 4) 3 <= 1
  /\ 0 <= Part0.poly_ease_out (1 # 4) 3 <= 1
  /\ Part0.poly_ease_in (1 # 4) 3 <= Part0.poly_ease_in (1 # 2) 3
  /\ Part0.poly_ease_out (1 # 4) 3 <= Part0.poly_ease_out (1 # 2) 3.
Proof.
  apply (poly_ease_range_monotone (1 # 4) (1 # 2) 3); discriminate.
Defined.

Lemma Qltb_false (x y : Q) : Qltb x y = false <-> y <= x.
Proof.
  rewrite <- not_true_iff_false, Qltb_lt. split.
  - apply Qnot_lt_le.
  - intros H1 H2. lra.
Qed.




(** ** shuffle_string, shuffle_array *)

Lemma tag_with_order_spec {V : Type} (a : list V) (g : source) :
  forall n : nat,
    map Part0.val (fst (Part0.tag_with_order a g n)) = a
    /\ snd (Part0.tag_with_order a g n) = (n + length a)%nat.
Proof.
  induction a as [|x a IH]; intros n.
  - cbn [Part0.tag_with_order]. unfold ret. cbn [fst snd map length].
    split; [reflexivity | lia].
  - cbn [Part0.tag_with_order]. unfold bind, Math_random, ret.
    destruct (IH (S n)) as [Hv Hn].
    destruct (Part0.tag_with_order a g (S n)) as [rest n'].
    cbn [fst snd map length Part0.val] in *.
    split; [now rewrite Hv | lia].
Qed.

Lemma insert_by_order_perm {V : Type} (x : Part0.keyed V)
    (l : list (Part0.keyed V)) :
  Permutation (Part0.insert_by_order x l) (x :: l).
Proof.
  induction l as [|y l IH]; [reflexivity|].
  cbn [Part0.insert_by_order].
  destruct (Qle_bool (Part0.order x) (Part0.order y)); [reflexivity|].
  etransitivity; [apply perm_skip, IH | apply perm_swap].
Qed.

Lemma sort_by_order_perm {V : Type} (l : list (Part0.keyed V)) :
  Permutation (Part0.sort_by_order l) l.
Proof.
  induction l as [|x l IH]; [reflexivity|].
  unfold Part0.sort_by_order in *. cbn [foldr].
  etransitivity; [apply insert_by_order_perm | now apply perm_skip].
Qed.

(** The array that [a.map(...).sort(...).map(...)] builds holds the
    elements of [a] in some order, and one draw is taken per element. *)
Lemma shuffled_perm {V : Type} (a : list V) (g : source) (n : nat) :
  Permutation (fst (Part0.shuffled a g n)) a
  /\ snd (Part0.shuffled a g n) = (n + length a)%nat.
Proof.
  unfold Part0.shuffled, bind, ret.
  destruct (tag_with_order_spec a g n) as [Hv Hn].
  destruct (Part0.tag_with_order a g n) as [tagged n']. simpl in *.
  split; [|exact Hn].
  rewrite <- Hv. apply Permutation_map, sort_by_order_perm.
Qed.

Lemma chars_join_perm (l l' : list string) :
  Permutation l l' ->
  Permutation (list_ascii_of_string (join l)) (list_ascii_of_string (join l')).
Proof.
  induction 1 as [|s l l' _ IH|s t l|l l' l'' _ IH1 _ IH2].
  - reflexivity.
  - simpl. rewrite !chars_append. now apply Permutation_app_head.
  - simpl. rewrite !chars_append. rewrite !app_assoc.
    apply Permutation_app_tail, Permutation_app_comm.
  - etransitivity; eassumption.
Qed.

Lemma join_split_chars (s : string) : join (split_chars s) = s.
Proof.
  unfold split_chars. induction s as [|c s IH]; [reflexivity|].
  simpl. now rewrite IH.
Qed.

(** [shuffle_string] returns the characters of its argument in some
    order: a string of the same length with the same characters, each as
    many times; it takes one draw per character. *)
Theorem shuffle_string_permutation (s : string) (g : source) (n : nat) :
  Permutation
    (list_ascii_of_string (value_of (Part0.shuffle_string s) g n))
    (list_ascii_of_string s)
  /\ String.length (value_of (Part0.shuffle_string s) g n) = String.length s
  /\ snd (Part0.shuffle_string s g n) = (n + String.length s)%nat.
Proof.
  unfold value_of, Part0.shuffle_string, bind, ret.
  destruct (shuffled_perm (split_chars s) g n) as [Hp Hn].
  destruct (Part0.shuffled (split_chars s) g n) as [chars n']. simpl in *.
  assert (P : Permutation (list_ascii_of_string (join chars))
                (list_ascii_of_string s)).
  { rewrite <- (join_split_chars s) at 1. now apply chars_join_perm. }
  split; [exact P|]. split.
  - rewrite !chars_length. now apply Permutation_length.
  - rewrite Hn. unfold split_chars. rewrite length_map, chars_length.
    reflexivity.
Qed.

(** A source that repeats one value leaves the string as it is: the
    sort is stable. *)
Lemma sort_equal_keys {V : Type} (l : list (Part0.keyed V)) (u : Q) :
  Forall (fun e => Part0.order e = u) l -> Part0.sort_by_order l = l.
Proof.
  induction 1 as [|x l Hx Hl IH]; [reflexivity|].
  unfold Part0.sort_by_order in *. cbn [foldr]. rewrite IH.
  destruct Hl as [|y l Hy Hl]; [reflexivity|].
  cbn [Part0.insert_by_order]. rewrite Hx, Hy.
  assert (E : Qle_bool u u = true) by (apply Qle_bool_iff, Qle_refl).
  now rewrite E.
Qed.

Lemma tag_with_order_constant {V : Type} (a : list V) (u : Q) :
  forall n : nat,
    Forall (fun e => Part0.order e = u)
      (fst (Part0.tag_with_order a (fun _ => u) n)).
Proof.
  induction a as [|x a IH]; intros n; [constructor|].
  cbn [Part0.tag_with_order]. unfold bind, Math_random, ret.
  specialize (IH (S n)).
  destruct (Part0.tag_with_order a (fun _ => u) (S n)) as [rest n'].
  cbn [fst] in *. now constructor.
Qed.

Theorem shuffle_string_constant_source (s : string) (u : Q) (n : nat) :
  value_of (Part0.shuffle_string s) (fun _ => u) n = s.
Proof.
  unfold value_of, Part0.shuffle_string, Part0.shuffled, bind, ret.
  pose proof (tag_with_order_constant (split_chars s) u n) as Hc.
  destruct (tag_with_order_spec (split_chars s) (fun _ => u) n) as [Hv _].
  destruct (Part0.tag_with_order (split_chars s) (fun _ => u) n)
    as [tagged n'].
  simpl in *. rewrite (sort_equal_keys tagged u Hc), Hv.
  apply join_split_chars.
Qed.

(** The [shuffle_array] of part_000 takes one draw per element and
    leaves the array it was given as it is; the one of src/utils.js
    takes one draw less than there are elements (none for the empty
    array) and keeps the length. *)
Theorem shuffle_array_draws `{Undefined V} (arr : list V) (g : source)
    (n : nat) :
  unit_draws g ->
  Part0.shuffle_array arr g n = (arr, (n + length arr)%nat)
  /\ snd (UtilsJs.shuffle_array arr g n) = (n + (length arr - 1))%nat
  /\ length (value_of (UtilsJs.shuffle_array arr) g n) = length arr.
Proof.
  intros Hg. split; [|split].
  - unfold Part0.shuffle_array, bind, ret.
    destruct (shuffled_perm arr g n) as [_ Hn].
    destruct (Part0.shuffled arr g n) as [l n']. simpl in Hn. now rewrite Hn.
  - unfold UtilsJs.shuffle_array.
    generalize (length arr - 1)%nat as i. intros i. revert arr n.
    induction i as [|i IH]; intros arr n; [simpl; lia|].
    cbn [UtilsJs.shuffle_loop]. unfold bind at 1.
    unfold UtilsJs.shuffle_step at 1. unfold bind at 1.
    unfold Math_random, ret. cbv beta iota zeta. rewrite IH. lia.
  - apply Permutation_length. unfold UtilsJs.shuffle_array.
    apply shuffle_loop_perm; [exact Hg|].
    destruct arr; simpl; [right; reflexivity | left; lia].
Qed.

Lemma shuffle_array_draws_witness :
  Part0.shuffle_array [Some 1%Z; Some 2%Z; Some 3%Z] half_draws 0%nat
  = ([Some 1%Z; Some 2%Z; Some 3%Z], (0 + 3)%nat)
  /\ snd (UtilsJs.shuffle_array [Some 1%Z; Some 2%Z; Some 3%Z] half_draws
            0%nat)
     = (0 + (3 - 1))%nat
  /\ length (value_of (UtilsJs.shuffle_array [Some 1%Z; Some 2%Z; Some 3%Z])
               half_draws 0)
     = 3%nat.
Proof.
  apply (shuffle_array_draws [Some 1%Z; Some 2%Z; Some 3%Z] half_draws 0).
  intros n. unfold half_draws. split; [discriminate | reflexivity].
Defined.

(** ** wrap *)

Lemma wrap_above_diverges (min_val max_val : Q) :
  max_val <= min_val ->
  forall (fuel : nat) (value : Q),
    max_val < value -> Shared.wrap_above fuel value min_val max_val = None.
Proof.
  intros Hb. induction fuel as [|fuel IH]; intros value Hv; [reflexivity|].
  cbn [Shared.wrap_above].
  assert (E : Qltb max_val value = true) by now apply Qltb_lt.
  rewrite E. apply IH. lra.
Qed.

Lemma wrap_below_diverges (min_val max_val : Q) :
  max_val <= min_val ->
  forall (fuel : nat) (value : Q),
    value < min_val -> Shared.wrap_below fuel value min_val max_val = None.
Proof.
  intros Hb. induction fuel as [|fuel IH]; intros value Hv; [reflexivity|].
  cbn [Shared.wrap_below].
  assert (E : Qltb value min_val = true) by now apply Qltb_lt.
  rewrite E. apply IH. lra.
Qed.

(** On an interval that is empty or a single point, [max_val <= min_val],
    [wrap] does not return for a value outside it: no number of passes
    through its loops is enough. *)
Theorem wrap_diverges (value min_val max_val : Q) (fuel : nat) :
  max_val <= min_val -> value < min_val \/ max_val < value ->
  Shared.wrap fuel value min_val max_val = None.
Proof.
  intros Hb Hv. unfold Shared.wrap.
  destruct (Qlt_le_dec max_val value) as [Hgt | Hle].
  - now rewrite wrap_above_diverges.
  - destruct fuel as [|fuel]; [reflexivity|].
    cbn [Shared.wrap_above].
    assert (E : Qltb max_val value = false) by now apply Qltb_false.
    rewrite E. apply wrap_below_diverges; [exact Hb|].
    destruct Hv as [Hv | Hv]; lra.
Qed.

Lemma wrap_diverges_witness : Shared.wrap 1000 5 3 3 = None.
Proof.
  apply (wrap_diverges 5 3 3 1000).
  - discriminate.
  - right. reflexivity.
Defined.

(** A value inside the interval, end points included, is returned as it
    is, after one test of each loop and without arithmetic: [wrap] sends
    [max_val] to itself, where a modulo would give [min_val]. *)
Theorem wrap_fixed_inside (value min_val max_val : Q) (fuel : nat) :
  min_val <= value <= max_val ->
  Binary64.wrap (S fuel) value min_val max_val = Some value.
Proof.
  intros [Hmin Hmax]. unfold Binary64.wrap.
  cbn [Binary64.wrap_above Binary64.wrap_below].
  assert (E1 : Qltb max_val value = false) by now apply Qltb_false.
  assert (E2 : Qltb value min_val = false) by now apply Qltb_false.
  now rewrite E1, E2.
Qed.

Lemma wrap_fixed_inside_witness : Binary64.wrap 1 60 0 60 = Some 60.
Proof. apply (wrap_fixed_inside 60 0 60 0). split; discriminate. Defined.

Lemma fl_nonpos (q : Q) : q <= 0 -> fl q <= 0.
Proof.
  intros Hq. assert (H : 0 <= fl (- q)) by (apply fl_nonneg; lra).
  rewrite fl_opp in H. lra.
Qed.

Lemma rounded_wrap_above_diverges (min_val max_val : Q) :
  max_val <= min_val ->
  forall (fuel : nat) (value : Q),
    fl value == value -> max_val < value ->
    Binary64.wrap_above fuel value min_val max_val = None.
Proof.
  intros Hb. induction fuel as [|fuel IH]; intros value Hd Hv; [reflexivity|].
  cbn [Binary64.wrap_above].
  assert (E : Qltb max_val value = true) by now apply Qltb_lt.
  rewrite E. apply IH; [apply fl_idempotent|].
  assert (Hw : fl (max_val - min_val) <= 0) by (apply fl_nonpos; lra).
  apply Qlt_le_trans with (fl value); [rewrite Hd; exact Hv|].
  apply fl_monotone. lra.
Qed.

Lemma rounded_wrap_below_diverges (min_val max_val : Q) :
  max_val <= min_val ->
  forall (fuel : nat) (value : Q),
    fl value == value -> value < min_val ->
    Binary64.wrap_below fuel value min_val max_val = None.
Proof.
  intros Hb. induction fuel as [|fuel IH]; intros value Hd Hv; [reflexivity|].
  cbn [Binary64.wrap_below].
  assert (E : Qltb value min_val = true) by now apply Qltb_lt.
  rewrite E. apply IH; [apply fl_idempotent|].
  assert (Hw : fl (max_val - min_val) <= 0) by (apply fl_nonpos; lra).
  apply Qle_lt_trans with (fl value); [|rewrite Hd; exact Hv].
  apply fl_monotone. lra.
Qed.

(** The same in double arithmetic, where the steps are rounded: on an
    interval with [max_val <= min_val], [wrap] does not return for a
    double outside it. *)
Theorem wrap_diverges_rounded (value min_val max_val : Q) (fuel : nat) :
  double value ->
  max_val <= min_val -> value < min_val \/ max_val < value ->
  Binary64.wrap fuel value min_val max_val = None.
Proof.
  intros [Hd _] Hb Hv. unfold Binary64.wrap.
  destruct (Qlt_le_dec max_val value) as [Hgt | Hle].
  - now rewrite rounded_wrap_above_diverges.
  - destruct fuel as [|fuel]; [reflexivity|].
    cbn [Binary64.wrap_above].
    assert (E : Qltb max_val value = false) by now apply Qltb_false.
    rewrite E. apply rounded_wrap_below_diverges; [exact Hb | exact Hd |].
    destruct Hv as [Hv | Hv]; lra.
Qed.

Lemma wrap_diverges_rounded_witness : Binary64.wrap 1000 5 3 3 = None.
Proof.
  apply (wrap_diverges_rounded 5 3 3 1000).
  - split; vm_compute; reflexivity.
  - discriminate.
  - right. reflexivity.
Defined.

(** ** xy_from_index, index_from_xy *)

Lemma xy_from_index_div_mod_witness :
  Part0.x (Part0.xy_from_index (inject_Z 25) (inject_Z 10))
  == inject_Z (25 mod 10)
  /\ Part0.y (Part0.xy_from_index (inject_Z 25) (inject_Z 10))
     == inject_Z (25 / 10).
Proof. apply (xy_from_index_div_mod 25 10); lia. Defined.

(** On a grid of positive integer width [w], the coordinates of an
    index [i >= 0] are the remainder and the quotient of [i] by [w]:
    [x] is an integer of [[0, w)] and [y] an integer that is not
    negative. *)
Theorem xy_from_index_coordinates (w i : Z) :
  (0 < w)%Z -> (0 <= i)%Z ->
  let p := Part0.xy_from_index (inject_Z i) (inject_Z w) in
  Part0.x p == inject_Z (i mod w)
  /\ Part0.y p == inject_Z (i / w)
  /\ 0 <= Part0.x p < inject_Z w
  /\ 0 <= Part0.y p.
Proof.
  intros Hw Hi. cbv zeta.
  destruct (xy_from_index_div_mod i w Hw Hi) as [Ex Ey].
  pose proof (Z.mod_pos_bound i w Hw) as Hm.
  assert (Hd : (0 <= i / w)%Z) by (apply Z.div_pos; lia).
  split; [exact Ex|]. split; [exact Ey|].
  rewrite Ex, Ey. change 0 with (inject_Z 0).
  rewrite <- !Zle_Qle, <- Zlt_Qlt. lia.
Qed.

Lemma xy_from_index_coordinates_witness :
  let p := Part0.xy_from_index (inject_Z 25) (inject_Z 10) in
  Part0.x p == inject_Z (25 mod 10)
  /\ Part0.y p == inject_Z (25 / 10)
  /\ 0 <= Part0.x p < inject_Z 10
  /\ 0 <= Part0.y p.
Proof. apply (xy_from_index_coordinates 10 25); lia. Defined.

#[local] Instance Qtrunc_proper : Proper (Qeq ==> eq) Part0.Qtrunc.
Proof.
  intros q q' E. unfold Part0.Qtrunc.
  assert (E1 : Qle_bool 0 q = Qle_bool 0 q').
  { apply eq_true_iff_eq. rewrite !Qle_bool_iff.
    split; intros E'; [rewrite <- E | rewrite E]; exact E'. }
  rewrite E1, (Qfloor_comp _ _ E), (Qceiling_comp _ _ E). reflexivity.
Qed.

(** In the other direction: for integers [0 <= x < w] and [y >= 0],
    [xy_from_index] of the index that [index_from_xy] gives has the
    coordinates [x] and [y] again. *)
Theorem xy_index_round_trip (w x y : Z) :
  (0 <= x < w)%Z -> (0 <= y)%Z ->
  let p := Part0.xy_from_index
             (Part0.index_from_xy (inject_Z x) (inject_Z y) (inject_Z w))
             (inject_Z w) in
  Part0.x p == inject_Z x /\ Part0.y p == inject_Z y.
Proof.
  intros Hx Hy.
  assert (Hw : (0 < w)%Z) by lia.
  assert (Hi : (0 <= x + w * y)%Z) by nia.
  assert (E : Part0.index_from_xy (inject_Z x) (inject_Z y) (inject_Z w)
              == inject_Z (x + w * y)).
  { unfold Part0.index_from_xy. rewrite inject_Z_plus, inject_Z_mult.
    reflexivity. }
  destruct (xy_from_index_div_mod (x + w * y) w Hw Hi) as [Ex Ey].
  assert (Hmod : ((x + w * y) mod w = x)%Z).
  { rewrite Z.mul_comm, Z.mod_add by lia. apply Z.mod_small. lia. }
  assert (Hdiv : ((x + w * y) / w = y)%Z).
  { rewrite Z.mul_comm, Z.div_add by lia. rewrite Z.div_small by lia. lia. }
  rewrite Hmod in Ex. rewrite Hdiv in Ey.
  cbv zeta. unfold Part0.xy_from_index, Part0.remainder, Math_floor in *.
  cbn [Part0.x Part0.y] in *.
  set (idx := Part0.index_from_xy (inject_Z x) (inject_Z y) (inject_Z w)) in *.
  assert (Eq : idx / inject_Z w == inject_Z (x + w * y) / inject_Z w)
    by (rewrite E; reflexivity).
  rewrite (Qtrunc_proper _ _ Eq), (Qfloor_comp _ _ Eq).
  split; [rewrite E; exact Ex | exact Ey].
Qed.

Lemma xy_index_round_trip_witness :
  let p := Part0.xy_from_index
             (Part0.index_from_xy (inject_Z 7) (inject_Z 4) (inject_Z 12))
             (inject_Z 12) in
  Part0.x p == inject_Z 7 /\ Part0.y p == inject_Z 4.
Proof. apply (xy_index_round_trip 12 7 4); lia. Defined.

(** Below zero the round trip of the claim fails: for a negative index
    that is no multiple of the width, the remainder is negative and the
    quotient is rounded down, and [index_from_xy] gives [i - w]. *)
Theorem index_xy_negative (w i : Z) :
  (0 < w)%Z -> (i < 0)%Z -> (i mod w <> 0)%Z ->
  let p := Part0.xy_from_index (inject_Z i) (inject_Z w) in
  Part0.x p == inject_Z (i mod w - w)
  /\ Part0.y p == inject_Z (i / w)
  /\ Part0.index_from_xy (Part0.x p) (Part0.y p) (inject_Z w)
     == inject_Z (i - w).
Proof.
  intros Hw Hi Hmod.
  assert (Hw' : 0 < inject_Z w).
  { change 0 with (inject_Z 0). rewrite <- Zlt_Qlt. exact Hw. }
  assert (Hq : inject_Z i / inject_Z w < 0).
  { apply Qlt_shift_div_r; [exact Hw'|]. rewrite Qmult_0_l.
    change 0 with (inject_Z 0). rewrite <- Zlt_Qlt. exact Hi. }
  assert (Ht : Part0.Qtrunc (inject_Z i / inject_Z w) = (i / w + 1)%Z).
  { unfold Part0.Qtrunc.
    assert (E : Qle_bool 0 (inject_Z i / inject_Z w) = false).
    { apply not_true_iff_false. intros E. apply Qle_bool_iff in E. lra. }
    rewrite E. unfold Qceiling.
    assert (E' : - (inject_Z i / inject_Z w) == inject_Z (- i) / inject_Z w).
    { rewrite inject_Z_opp. field. lra. }
    rewrite (Qfloor_comp _ _ E'), <- Zdiv_Qdiv.
    rewrite Z.div_opp_l_nz by lia. lia. }
  cbv zeta. unfold Part0.xy_from_index, Part0.index_from_xy,
    Part0.remainder, Math_floor.
  cbn [Part0.x Part0.y]. rewrite Ht, <- Zdiv_Qdiv.
  assert (Ex : inject_Z i - inject_Z w * inject_Z (i / w + 1)
               == inject_Z (i mod w - w)).
  { assert (Ez : (i mod w - w = i + - (w * (i / w + 1)))%Z)
      by (rewrite Z.mod_eq by lia; ring).
    rewrite Ez, !inject_Z_plus, inject_Z_opp, inject_Z_mult, inject_Z_plus.
    reflexivity. }
  split; [exact Ex|]. split; [reflexivity|].
  rewrite Ex.
  assert (Ez : (i - w = (i mod w - w) + w * (i / w))%Z)
    by (rewrite Z.mod_eq by lia; ring).
  rewrite Ez, inject_Z_plus, inject_Z_mult. reflexivity.
Qed.

Lemma index_xy_negative_witness :
  let p := Part0.xy_from_index (inject_Z (-1)) (inject_Z 12) in
  Part0.x p == inject_Z ((-1) mod 12 - 12)
  /\ Part0.y p == inject_Z ((-1) / 12)
  /\ Part0.index_from_xy (Part0.x p) (Part0.y p) (inject_Z 12)
     == inject_Z (-1 - 12).
Proof. apply (index_xy_negative 12 (-1)); [lia | lia | discriminate]. Defined.

(** ** dec_to_hex, hex_to_dec *)

(** What [dec_to_hex] builds for an integer [n >= 0] is read back by
    [parseInt(s, 16)]. *)
Lemma hex_written_read (n : N) (padding : nat) (prefix : bool) :
  let hex := toUpperCase (padStart (Z_toString16 (Z.of_N n)) padding "0"%char) in
  parseInt16 (if prefix then "0"%char :: "x"%char :: hex else hex)
  = Some (Z.of_N n).
Proof.
  cbv zeta.
  destruct (HexFacts.padded_upper n padding) as (l & Hl & Hne & Hsmall & Hval).
  destruct (HexFacts.parseInt16_digits l Hne Hsmall) as [Hplain Hprefixed].
  rewrite Hval in Hplain, Hprefixed. rewrite Hl. now destruct prefix.
Qed.

(** With rounding, the round trip holds for every number [dec >= 0],
    integer or not: [hex_to_dec(dec_to_hex(dec))] is [Math.floor(dec)]. *)
Theorem hex_round_trip_floor (dec : Q) (padding : nat) (prefix : bool) :
  0 <= dec ->
  exists hex : string,
    Part0.dec_to_hex dec padding prefix true = Some hex
    /\ Part0.hex_to_dec hex = Some (Qfloor dec).
Proof.
  intros Hdec.
  assert (Hz : (0 <= Qfloor dec)%Z).
  { change 0%Z with (Qfloor 0). now apply Qfloor_resp_le. }
  unfold Part0.dec_to_hex, Part0.hex_to_dec, Math_floor.
  rewrite Number_toString16_integer.
  eexists. split; [reflexivity|].
  rewrite list_ascii_of_string_of_list_ascii.
  rewrite <- (Z2N.id (Qfloor dec)) by exact Hz.
  apply hex_written_read.
Qed.

Lemma hex_round_trip_floor_witness :
  exists hex : string,
    Part0.dec_to_hex (465 # 2) 4 true true = Some hex
    /\ Part0.hex_to_dec hex = Some (Qfloor (465 # 2)).
Proof. apply (hex_round_trip_floor (465 # 2) 4 true). discriminate. Defined.

Lemma toString16_negative (z : Z) :
  (z < 0)%Z ->
  exists l : list N,
    toUpperCase (Z_toString16 z) = "-"%char :: map upper_hex l
    /\ l <> [] /\ Forall (fun d => (d < 16)%N) l
    /\ from_digits l 0 = Z.abs_N z.
Proof.
  intros Hz. unfold Z_toString16.
  assert (E : (z <? 0)%Z = true) by now apply Z.ltb_lt.
  rewrite E.
  exists (digits16 (S (N.to_nat (N.log2 (Z.abs_N z)))) (Z.abs_N z) []).
  split; [|split; [|split]].
  - unfold toUpperCase. cbn [map]. rewrite map_map. reflexivity.
  - apply HexFacts.digits16_nonempty.
  - apply HexFacts.digits16_small. constructor.
  - apply HexFacts.digits16_value, HexFacts.log2_fuel.
Qed.

Lemma upper_pad (s : list ascii) (padding : nat) :
  toUpperCase (padStart s padding "0"%char)
  = replicate (padding - length (toUpperCase s)) "0"%char ++ toUpperCase s.
Proof.
  unfold padStart, toUpperCase. rewrite map_app, length_map. f_equal.
  induction (padding - length s)%nat as [|k IH]; [reflexivity|].
  simpl. now rewrite IH.
Qed.

Lemma digits_prefix_zeros_stop (k : nat) (c : ascii) (rest : list ascii) :
  digit_value c = None ->
  digits_prefix (replicate (S k) "0"%char ++ c :: rest) 0 false = Some 0%N.
Proof.
  intros Hc.
  assert (G : forall k', digits_prefix (replicate k' "0"%char ++ c :: rest) 0 true
                         = Some 0%N).
  { induction k' as [|k' IH]; simpl.
    - now rewrite Hc.
    - exact IH. }
  cbn [replicate app digits_prefix].
  change (digit_value "0"%char) with (Some 0%N). cbv iota. apply G.
Qed.

(** A negative integer is written with its sign after the padding and
    after the prefix, where [parseInt] does not look for it: the round
    trip holds without padding and prefix; with the prefix the result is
    [NaN]; with padding wider than the number it is 0. *)
Theorem hex_negative (z : Z) (padding : nat) (round : bool) :
  (z < 0)%Z ->
  (exists hex : string,
     Part0.dec_to_hex (inject_Z z) 0 false round = Some hex
     /\ Part0.hex_to_dec hex = Some z
     /\ ((String.length hex < padding)%nat ->
         exists padded : string,
           Part0.dec_to_hex (inject_Z z) padding false round = Some padded
           /\ Part0.hex_to_dec padded = Some 0%Z))
  /\ exists hex : string,
       Part0.dec_to_hex (inject_Z z) 0 true round = Some hex
       /\ Part0.hex_to_dec hex = None.
Proof.
  intros Hz.
  destruct (toString16_negative z Hz) as (l & Hl & Hne & Hsmall & Hval).
  pose proof (HexFacts.digits_prefix_digits l Hsmall 0 false) as Hp.
  rewrite bool_decide_eq_false_2 in Hp by exact Hne. cbn [orb negb] in Hp.
  assert (E : (if round then Math_floor (inject_Z z) else inject_Z z)
              = inject_Z z).
  { destruct round; [|reflexivity]. unfold Math_floor. now rewrite Qfloor_Z. }
  unfold Part0.dec_to_hex, Part0.hex_to_dec.
  rewrite E, Number_toString16_integer.
  assert (Hpad0 : padStart (Z_toString16 z) 0 "0"%char = Z_toString16 z)
    by reflexivity.
  split.
  - eexists. split; [reflexivity|].
    rewrite list_ascii_of_string_of_list_ascii, Hpad0, Hl.
    split.
    + unfold parseInt16. cbn [trim_start].
      change (is_space "-"%char) with false. cbv iota.
      cbn [strip_sign]. cbv beta iota zeta.
      rewrite (HexFacts.strip_0x_digits l Hsmall), Hp. cbn [option_map].
      rewrite Hval, N2Z.inj_abs_N. f_equal. lia.
    + intros Hlen. eexists. split; [reflexivity|].
      rewrite chars_length, list_ascii_of_string_of_list_ascii in Hlen.
      rewrite list_ascii_of_string_of_list_ascii, upper_pad, Hl.
      remember (padding - length ("-"%char :: map upper_hex l))%nat as k eqn:Hk.
      destruct k as [|k]; [lia|].
      unfold parseInt16.
      assert (Es : strip_sign (trim_start (replicate (S k) "0"%char
                     ++ "-"%char :: map upper_hex l))
                   = (1%Z, replicate (S k) "0"%char
                             ++ "-"%char :: map upper_hex l))
        by reflexivity.
      rewrite Es. cbv beta iota zeta.
      assert (Ex : strip_0x (replicate (S k) "0"%char
                     ++ "-"%char :: map upper_hex l)
                   = replicate (S k) "0"%char ++ "-"%char :: map upper_hex l)
        by (destruct k; reflexivity).
      rewrite Ex, digits_prefix_zeros_stop by reflexivity.
      reflexivity.
  - eexists. split; [reflexivity|].
    rewrite list_ascii_of_string_of_list_ascii, Hpad0, Hl.
    reflexivity.
Qed.

Lemma hex_negative_witness :
  (exists hex : string,
     Part0.dec_to_hex (inject_Z (-232)) 0 false true = Some hex
     /\ Part0.hex_to_dec hex = Some (-232)%Z
     /\ ((String.length hex < 6)%nat ->
         exists padded : string,
           Part0.dec_to_hex (inject_Z (-232)) 6 false true = Some padded
           /\ Part0.hex_to_dec padded = Some 0%Z))
  /\ exists hex : string,
       Part0.dec_to_hex (inject_Z (-232)) 0 true true = Some hex
       /\ Part0.hex_to_dec hex = None.
Proof. apply (hex_negative (-232) 6 true). lia. Defined.

Lemma digits_prefix_stop (l : list N) (c : ascii) (rest : list ascii) :
  Forall (fun d => (d < 16)%N) l -> l <> [] -> digit_value c = None ->
  forall a : N,
    digits_prefix (map upper_hex l ++ c :: rest) a false
    = Some (from_digits l a).
Proof.
  intros Hl Hne Hc.
  assert (G : forall l', Forall (fun d => (d < 16)%N) l' -> forall a,
              digits_prefix (map upper_hex l' ++ c :: rest) a true
              = Some (from_digits l' a)).
  { induction 1 as [|d l' Hd Hl' IH]; intros a.
    - simpl. now rewrite Hc.
    - cbn [map app digits_prefix].
      rewrite (HexFacts.digit_value_upper_hex d Hd). apply IH. }
  destruct Hl as [|d l Hd Hl]; [contradiction|]. intros a.
  cbn [map app digits_prefix].
  rewrite (HexFacts.digit_value_upper_hex d Hd), (G l Hl). reflexivity.
Qed.

Lemma strip_0x_digits_then (l : list N) (c : ascii) (rest : list ascii) :
  Forall (fun d => (d < 16)%N) l -> l <> [] ->
  c <> "x"%char -> c <> "X"%char ->
  strip_0x (map upper_hex l ++ c :: rest) = map upper_hex l ++ c :: rest.
Proof.
  intros Hl Hne Hx HX.
  destruct Hl as [|d l Hd Hl]; [contradiction|].
  destruct Hl as [|d' l Hd' Hl]; cbn [map app].
  - digit_cases d; try reflexivity.
    destruct c as [[] [] [] [] [] [] [] []]; try reflexivity; congruence.
  - digit_cases d; try reflexivity.
    digit_cases d'; reflexivity.
Qed.

(** [hex_to_dec] reads the digits in front and ignores what follows the
    first character that is no digit (other than an [x] taken for the
    prefix): after what [dec_to_hex] wrote for [n >= 0], any such tail
    leaves the result [n]. *)
Theorem hex_to_dec_ignores_tail (n : N) (padding : nat) (c : ascii)
    (rest : string) :
  digit_value c = None -> c <> "x"%char -> c <> "X"%char ->
  exists hex : string,
    Part0.dec_to_hex (inject_Z (Z.of_N n)) padding false true = Some hex
    /\ Part0.hex_to_dec (hex ++ String c rest) = Some (Z.of_N n).
Proof.
  intros Hc Hx HX.
  unfold Part0.dec_to_hex, Part0.hex_to_dec, Math_floor.
  rewrite Qfloor_Z, Number_toString16_integer.
  destruct (HexFacts.padded_upper n padding) as (l & Hl & Hne & Hsmall & Hval).
  eexists. split; [reflexivity|].
  rewrite chars_append, list_ascii_of_string_of_list_ascii, Hl.
  cbn [list_ascii_of_string]. unfold parseInt16.
  assert (Hs : strip_sign (trim_start
                 (map upper_hex l ++ c :: list_ascii_of_string rest))
               = (1%Z, map upper_hex l ++ c :: list_ascii_of_string rest)).
  { destruct Hsmall as [|d l Hd Hsmall]; [contradiction|].
    cbn [map app trim_start]. rewrite (HexFacts.upper_hex_not_space d Hd).
    now apply HexFacts.strip_sign_digit. }
  rewrite Hs. cbv beta iota zeta.
  rewrite strip_0x_digits_then, digits_prefix_stop by assumption.
  cbn [option_map]. rewrite Hval. f_equal. lia.
Qed.

Lemma hex_to_dec_ignores_tail_witness :
  exists hex : string,
    Part0.dec_to_hex (inject_Z (Z.of_N 100)) 0 false true = Some hex
    /\ Part0.hex_to_dec (hex ++ String "h"%char EmptyString)
       = Some (Z.of_N 100).
Proof.
  apply (hex_to_dec_ignores_tail 100 0 "h"%char EmptyString);
    [reflexivity | discriminate | discriminate].
Defined.

(** [hex_to_dec] gives [NaN] for the empty string and for a string whose
    first character is neither white space, nor a sign, nor a digit of
    radix 16. *)
Theorem hex_to_dec_nan (c : ascii) (s : string) :
  digit_value c = None -> is_space c = false ->
  c <> "+"%char -> c <> "-"%char ->
  Part0.hex_to_dec (String c s) = None
  /\ Part0.hex_to_dec EmptyString = None.
Proof.
  intros Hd Hs Hplus Hminus. split; [|reflexivity].
  unfold Part0.hex_to_dec. cbn [list_ascii_of_string].
  destruct c as [[] [] [] [] [] [] [] []];
    try discriminate Hd; try discriminate Hs; try congruence; reflexivity.
Qed.

Lemma hex_to_dec_nan_witness :
  Part0.hex_to_dec (String "z"%char "E8") = None
  /\ Part0.hex_to_dec EmptyString = None.
Proof.
  apply (hex_to_dec_nan "z"%char "E8");
    [reflexivity | reflexivity | discriminate | discriminate].
Defined.

(** The padding is a minimal width: without the prefix the result of
    [dec_to_hex] for an integer is as long as the padding or as the
    unpadded result, whichever is more, and the prefix adds two
    characters. *)
Theorem dec_to_hex_length (z : Z) (padding : nat) (round : bool) :
  exists plain padded prefixed : string,
    Part0.dec_to_hex (inject_Z z) 0 false round = Some plain
    /\ Part0.dec_to_hex (inject_Z z) padding false round = Some padded
    /\ Part0.dec_to_hex (inject_Z z) padding true round = Some prefixed
    /\ String.length padded = Nat.max padding (String.length plain)
    /\ String.length prefixed = S (S (String.length padded)).
Proof.
  assert (E : (if round then Math_floor (inject_Z z) else inject_Z z)
              = inject_Z z).
  { destruct round; [|reflexivity]. unfold Math_floor. now rewrite Qfloor_Z. }
  unfold Part0.dec_to_hex. rewrite E, Number_toString16_integer.
  do 3 eexists. split; [reflexivity|]. split; [reflexivity|].
  split; [reflexivity|].
  rewrite !chars_length, !list_ascii_of_string_of_list_ascii.
  split; [|reflexivity].
  rewrite !upper_pad, !length_app, !length_replicate. lia.
Qed.

(** ** random_string *)

(** For any number [len] the string has as many characters as there are
    integers [i >= 0] below [len], that is the ceiling of [len]: one
    more than the integer part for a fraction, none for [len <= 0]. *)
Theorem random_string_any_length (len : Q) (g : source) (n : nat) :
  unit_draws g ->
  String.length (value_of (Part0.random_string len) g n)
  = Z.to_nat (Qceiling len)
  /\ (len <= 0 -> value_of (Part0.random_string len) g n = EmptyString).
Proof.
  intros Hg. unfold Part0.random_string. split.
  - destruct (random_string_loop_spec g Hg (Z.to_nat (Qceiling len))
                EmptyString n) as (l & Hl & Hlen & _).
    rewrite chars_length, Hl. simpl. exact Hlen.
  - intros Hle.
    assert (Hc : (Qceiling len <= 0)%Z).
    { change 0%Z with (Qceiling 0). now apply Qceiling_resp_le. }
    assert (E : Z.to_nat (Qceiling len) = O) by lia.
    rewrite E. reflexivity.
Qed.

Lemma random_string_any_length_witness :
  String.length (value_of (Part0.random_string (5 # 2)) half_draws 0)
  = Z.to_nat (Qceiling (5 # 2))
  /\ (5 # 2 <= 0 ->
      value_of (Part0.random_string (5 # 2)) half_draws 0 = EmptyString).
Proof.
  apply (random_string_any_length (5 # 2) half_draws 0).
  intros n. unfold half_draws. split; [discriminate | reflexivity].
Defined.

(** ** random_normal *)

(** When [Math.pow(x, skew)] keeps [[0, 1]] in [[0, 1]], as it does for
    [skew >= 0], and the bounds lie on one binary grid, every value that
    [random_normal(min, max, skew)] returns lies between [min] and
    [max]. *)
Theorem random_normal_in_range `{MathLib} (min max s : Z) (skew : Q)
    (fuel : nat) (g : source) (n n' : nat) (r : Q) :
  (forall x : Q, 0 <= x <= 1 -> 0 <= Math_pow x skew <= 1) ->
  (Z.abs min < 2 ^ 52)%Z -> (Z.abs max < 2 ^ 52)%Z ->
  (-1074 <= s <= 971)%Z -> (min <= max)%Z ->
  Binary64.random_normal fuel (Some (dyadic min s)) (Some (dyadic max s))
    (Some skew) g n
  = (Some r, n') ->
  dyadic min s <= r <= dyadic max s.
Proof.
  intros Hpow Hmin Hmax Hs Hmm. revert g n n' r.
  induction fuel as [|fuel IH]; intros g n n' r Hr; [discriminate|].
  cbn [Binary64.random_normal] in Hr.
  unfold bind_opt at 1 in Hr. unfold bind at 1 in Hr.
  destruct (Shared.draw_nonzero (S fuel) g n) as [[u|] n1]; [|discriminate].
  unfold bind_opt at 1 in Hr. unfold bind at 1 in Hr.
  destruct (Shared.draw_nonzero (S fuel) g n1) as [[v|] n2]; [|discriminate].
  destruct (Qltb 1 (Binary64.box_muller u v)) eqn:E1.
  - cbn [orb] in Hr. now apply IH in Hr.
  - destruct (Qltb (Binary64.box_muller u v) 0) eqn:E0.
    + cbn [orb] in Hr. now apply IH in Hr.
    + cbn [orb] in Hr. unfold ret in Hr. injection Hr as <- _.
      apply Qltb_false in E1. apply Qltb_false in E0.
      cbv [default from_option id].
      apply stretch_grid; [apply Hpow; split; assumption | | | |]; lia.
Qed.

Lemma random_normal_in_range_witness :
  @Binary64.random_normal rational_math 1%nat (Some (dyadic 2 0))
    (Some (dyadic 5 0)) (Some 0) half_draws 0%nat
  = (Some (5629499534213120 # 1125899906842624), 2%nat)
  /\ dyadic 2 0 <= 5629499534213120 # 1125899906842624 <= dyadic 5 0.
Proof.
  split; [vm_compute; reflexivity|].
  apply (@random_normal_in_range rational_math 2 5 0 0 1%nat half_draws
           0%nat 2%nat (5629499534213120 # 1125899906842624)).
  - intros x _. split; discriminate.
  - reflexivity.
  - reflexivity.
  - lia.
  - lia.
  - vm_compute. reflexivity.
Defined.

(** ** manhattan_dist *)

Lemma fl_abs (q : Q) : fl (Qabs q) == Qabs (fl q).
Proof.
  destruct (Qlt_le_dec q 0) as [Hq | Hq].
  - assert (E : Qabs q == - q) by (apply Qabs_neg; lra).
    rewrite (fl_proper _ _ E), fl_opp.
    assert (H : 0 <= fl (- q)) by (apply fl_nonneg; lra).
    rewrite fl_opp in H. rewrite Qabs_neg; [reflexivity | lra].
  - assert (E : Qabs q == q) by now apply Qabs_pos.
    rewrite (fl_proper _ _ E).
    rewrite Qabs_pos; [reflexivity | now apply fl_nonneg].
Qed.

(** A double is a multiple of [2 ^ -1074]. *)
Lemma double_on_finest_grid (x : Q) :
  fl x == x -> exists k : Z, x == dyadic k (-1074).
Proof.
  intros Hx. destruct (fl_exact_form x) as (m & s & E & _ & Hs).
  exists (m * 2 ^ (s + 1074))%Z. rewrite <- Hx, E. unfold dyadic.
  rewrite inject_Z_mult, <- two_power_integer by lia.
  rewrite <- Qmult_assoc, <- Qpower_plus by discriminate.
  now replace (s + 1074 + -1074)%Z with s by lia.
Qed.

(** The difference of two doubles does not round to zero unless they are
    equal. *)
Lemma fl_difference_zero (x y : Q) :
  fl x == x -> fl y == y -> fl (x - y) == 0 -> x == y.
Proof.
  intros Hx Hy H0.
  destruct (double_on_finest_grid x Hx) as [kx Ex].
  destruct (double_on_finest_grid y Hy) as [ky Ey].
  assert (E : x - y == dyadic (kx - ky) (-1074)).
  { rewrite Ex, Ey. apply dyadic_minus. }
  assert (Hunit : forall k : Z, (Z.abs k < 2 ^ 53)%Z ->
            fl (dyadic k (-1074)) == dyadic k (-1074)).
  { intros k Hk. apply fl_dyadic; lia. }
  destruct (Z.lt_trichotomy (kx - ky) 0) as [Hlt | [Heq | Hgt]].
  - exfalso.
    assert (H : fl (x - y) <= fl (dyadic (-1) (-1074))).
    { apply fl_monotone. rewrite E. apply dyadic_le. lia. }
    rewrite Hunit, H0 in H by (vm_compute; reflexivity).
    revert H. vm_compute. intros H. now apply H.
  - rewrite Heq in E. unfold dyadic in E.
    assert (x - y == 0) by (rewrite E; ring). lra.
  - exfalso.
    assert (H : fl (dyadic 1 (-1074)) <= fl (x - y)).
    { apply fl_monotone. rewrite E. apply dyadic_le. lia. }
    rewrite Hunit, H0 in H by (vm_compute; reflexivity).
    revert H. vm_compute. intros H. now apply H.
Qed.

(** On doubles the Manhattan distance is never negative, symmetric, and
    zero exactly for equal points. *)
Theorem manhattan_dist_doubles (x1 y1 x2 y2 : Q) :
  double x1 -> double y1 -> double x2 -> double y2 ->
  0 <= Binary64.Part0.manhattan_dist x1 y1 x2 y2
  /\ Binary64.Part0.manhattan_dist x1 y1 x2 y2
     == Binary64.Part0.manhattan_dist x2 y2 x1 y1
  /\ (Binary64.Part0.manhattan_dist x1 y1 x2 y2 == 0
      <-> x1 == x2 /\ y1 == y2).
Proof.
  intros [Hx1 _] [Hy1 _] [Hx2 _] [Hy2 _].
  unfold Binary64.Part0.manhattan_dist.
  pose proof (Qabs_nonneg (fl (x1 - x2))) as Hax.
  pose proof (Qabs_nonneg (fl (y1 - y2))) as Hay.
  split; [|split].
  - apply fl_nonneg. lra.
  - assert (Ex : Qabs (fl (x1 - x2)) == Qabs (fl (x2 - x1))).
    { assert (E : x1 - x2 == - (x2 - x1)) by ring.
      rewrite (fl_proper _ _ E), fl_opp. apply Qabs_opp. }
    assert (Ey : Qabs (fl (y1 - y2)) == Qabs (fl (y2 - y1))).
    { assert (E : y1 - y2 == - (y2 - y1)) by ring.
      rewrite (fl_proper _ _ E), fl_opp. apply Qabs_opp. }
    assert (E : Qabs (fl (x1 - x2)) + Qabs (fl (y1 - y2))
                == Qabs (fl (x2 - x1)) + Qabs (fl (y2 - y1)))
      by (rewrite Ex, Ey; reflexivity).
    now rewrite (fl_proper _ _ E).
  - split.
    + intros Hd.
      assert (Hx : Qabs (fl (x1 - x2)) <= 0).
      { rewrite <- Hd.
        apply Qle_trans with (fl (Qabs (fl (x1 - x2)))).
        - rewrite fl_abs, fl_idempotent. apply Qle_refl.
        - apply fl_monotone. lra. }
      assert (Hy : Qabs (fl (y1 - y2)) <= 0).
      { rewrite <- Hd.
        apply Qle_trans with (fl (Qabs (fl (y1 - y2)))).
        - rewrite fl_abs, fl_idempotent. apply Qle_refl.
        - apply fl_monotone. lra. }
      split; apply fl_difference_zero; try assumption.
      * apply Qabs_Qle_condition in Hx. lra.
      * apply Qabs_Qle_condition in Hy. lra.
    + intros [Ex Ey].
      assert (E1 : x1 - x2 == 0) by (rewrite Ex; ring).
      assert (E2 : y1 - y2 == 0) by (rewrite Ey; ring).
      rewrite (fl_proper _ _ E1), (fl_proper _ _ E2). reflexivity.
Qed.

Lemma manhattan_dist_doubles_witness :
  0 <= Binary64.Part0.manhattan_dist 1 2 4 6
  /\ Binary64.Part0.manhattan_dist 1 2 4 6
     == Binary64.Part0.manhattan_dist 4 6 1 2
  /\ (Binary64.Part0.manhattan_dist 1 2 4 6 == 0 <-> 1 == 4 /\ 2 == 6).
Proof.
  apply (manhattan_dist_doubles 1 2 4 6); split; vm_compute; reflexivity.
Defined.

Example manhattan_dist_run : Binary64.Part0.manhattan_dist 1 2 4 6 == 7.
Proof. vm_compute. reflexivity. Qed.

(** ** get_css_var *)

Lemma join_split_at (sep : ascii) (s : string) :
  list_ascii_of_string (join (split_at sep s))
  = List.filter (fun c => negb (Ascii.eqb c sep)) (list_ascii_of_string s).
Proof.
  induction s as [|c s IH]; [reflexivity|].
  cbn [split_at list_ascii_of_string List.filter].
  destruct (Ascii.eqb c sep); cbn [negb].
  - exact IH.
  - destruct (split_at sep s) as [|piece rest].
    + simpl in *. now rewrite <- IH.
    + simpl in *. now rewrite <- IH.
Qed.

(** [get_css_var] returns the value of the property with every space
    taken out and the other characters in their order; no space is left
    in the result. *)
Theorem get_css_var_removes_spaces (getPropertyValue : string -> string)
    (property : string) :
  list_ascii_of_string (Part0.get_css_var getPropertyValue property)
  = List.filter (fun c => negb (Ascii.eqb c " "%char))
      (list_ascii_of_string (getPropertyValue property))
  /\ ~ In " "%char
       (list_ascii_of_string (Part0.get_css_var getPropertyValue property)).
Proof.
  unfold Part0.get_css_var. rewrite join_split_at. split; [reflexivity|].
  intros Hin. apply filter_In in Hin. destruct Hin as [_ Hin].
  discriminate Hin.
Qed.

Example get_css_var_run :
  Part0.get_css_var (fun _ => " 1px  solid red "%string) "--border"%string
  = "1pxsolidred"%string.
Proof. reflexivity. Qed.

(** ** random_from_array in the first revision of part_000 *)

(** [a[random_int(a.length)]] of the first revision chooses the same
    element as [a[Math.floor(Math.random() * a.length)]] of the later
    ones, for every array and every draw. *)
Theorem random_from_array_revisions_agree `{Undefined V} (a : list V)
    (g : source) (n : nat) :
  Part0First.random_from_array a g n = Part0.random_from_array a g n.
Proof.
  cbv [Part0First.random_from_array Part0First.random_int
       Part0First.random_int_between Part0.random_from_array bind
       Math_random ret].
  f_equal. apply elem_get_proper. unfold Math_floor.
  assert (E : g n * (len a - 0) == g n * len a) by ring.
  rewrite (Qfloor_comp _ _ E). ring.
Qed.

(** ** is_mobile *)

Lemma starts_with_ci_spec (name : list ascii) :
  forall s : list ascii,
    Part0.starts_with_ci name s = true <->
    exists w post : list ascii,
      s = w ++ post /\ map upper_char w = map upper_char name.
Proof.
  induction name as [|c name IH]; intros s.
  - split; [|reflexivity]. intros _. now exists [], s.
  - destruct s as [|d s]; cbn [Part0.starts_with_ci].
    + split; [discriminate|].
      intros (w & post & E & Hw). symmetry in E.
      apply app_eq_nil in E. destruct E as [-> _]. discriminate Hw.
    + rewrite andb_true_iff, Ascii.eqb_eq, IH. split.
      * intros (Hcd & w & post & -> & Hw).
        exists (d :: w), post. split; [reflexivity|].
        cbn [map]. now rewrite Hw, Hcd.
      * intros (w & post & E & Hw).
        destruct w as [|d' w]; [discriminate Hw|].
        cbn [map app] in *. injection E as <- ->. injection Hw as Hd Hw.
        split; [now symmetry|]. now exists w, post.
Qed.

Lemma occurs_ci_spec (name : list ascii) :
  forall s : list ascii,
    Part0.occurs_ci name s = true <->
    exists pre w post : list ascii,
      s = pre ++ w ++ post /\ map upper_char w = map upper_char name.
Proof.
  induction s as [|d s IH]; cbn [Part0.occurs_ci];
    rewrite orb_true_iff, starts_with_ci_spec.
  - split.
    + intros [(w & post & E & Hw) | F]; [|discriminate F].
      now exists [], w, post.
    + intros (pre & w & post & E & Hw). left.
      destruct pre as [|x pre]; [|discriminate E]. now exists w, post.
  - rewrite IH. split.
    + intros [(w & post & E & Hw) | (pre & w & post & E & Hw)].
      * now exists [], w, post.
      * exists (d :: pre), w, post. split; [now rewrite E | exact Hw].
    + intros (pre & w & post & E & Hw).
      destruct pre as [|x pre].
      * left. now exists w, post.
      * right. injection E as _ E. now exists pre, w, post.
Qed.

Lemma is_mobile_iff (userAgent : string) :
  Part0.is_mobile userAgent = true <->
  exists name : string,
    In name Part0.mobile_names
    /\ exists pre w post : list ascii,
         list_ascii_of_string userAgent = pre ++ w ++ post
         /\ map upper_char w = map upper_char (list_ascii_of_string name).
Proof.
  unfold Part0.is_mobile. rewrite existsb_exists.
  split; intros (name & Hin & Hocc); exists name; (split; [exact Hin|]);
    now apply occurs_ci_spec.
Qed.

(** [is_mobile] holds exactly when the user agent contains one of the
    eight names of the pattern, in any letter case. *)
Theorem is_mobile_spec (userAgent : string) :
  Part0.is_mobile userAgent = true <->
  exists name : string,
    In name Part0.mobile_names
    /\ exists pre w post : list ascii,
         list_ascii_of_string userAgent = pre ++ w ++ post
         /\ map upper_char w = map upper_char (list_ascii_of_string name).
Proof. exact (is_mobile_iff userAgent). Qed.

Lemma upper_char_idempotent (c : ascii) :
  upper_char (upper_char c) = upper_char c.
Proof. destruct c as [[] [] [] [] [] [] [] []]; reflexivity. Qed.

(** [is_mobile] does not depend on the letter case of the user agent,
    and text around a user agent that it accepts does not change the
    answer. *)
Theorem is_mobile_case_and_context (userAgent before after : string) :
  Part0.is_mobile
    (string_of_list_ascii (toUpperCase (list_ascii_of_string userAgent)))
  = Part0.is_mobile userAgent
  /\ (Part0.is_mobile userAgent = true ->
      Part0.is_mobile (before ++ userAgent ++ after) = true).
Proof.
  split.
  - apply eq_true_iff_eq. rewrite !is_mobile_iff.
    rewrite list_ascii_of_string_of_list_ascii.
    split; intros (name & Hin & pre & w & post & E & Hw); exists name;
      (split; [exact Hin|]).
    + unfold toUpperCase in E. apply map_eq_app in E.
      destruct E as (pre' & rest & E & Hpre & Hrest).
      apply map_eq_app in Hrest.
      destruct Hrest as (w' & post' & E' & Hw' & Hpost').
      exists pre', w', post'. split; [now rewrite E, E'|].
      rewrite <- Hw, <- Hw', map_map.
      apply map_ext. intros c. now rewrite upper_char_idempotent.
    + exists (toUpperCase pre), (toUpperCase w), (toUpperCase post).
      unfold toUpperCase. split; [now rewrite E, !map_app|].
      rewrite map_map, <- Hw. apply map_ext. intros c.
      apply upper_char_idempotent.
  - rewrite !is_mobile_iff.
    intros (name & Hin & pre & w & post & E & Hw). exists name.
    split; [exact Hin|].
    exists (list_ascii_of_string before ++ pre), w,
      (post ++ list_ascii_of_string after).
    split; [|exact Hw].
    rewrite !chars_append, E, <- !app_assoc. reflexivity.
Qed.

Example is_mobile_run :
  Part0.is_mobile "Mozilla/5.0 (Linux; ANDROID 14) Mobile"%string = true
  /\ Part0.is_mobile "Mozilla/5.0 (X11; Linux x86_64)"%string = false.
Proof. split; reflexivity. Qed.
